(** * workerpool: a bounded worker pool over a task channel

    Shallow embedding of [workerpool/workerpool.go].  The Go program is
    concurrent, so every function of the source is cut into its atomic
    actions (one channel operation, one atomic load or store, one call of
    the task) and the program is a set of threads taking such actions in any
    order over a shared memory.  A schedule is a list of actions; [run]
    replays it.  *)

From stdpp Require Import base option list numbers.

Set Default Proof Using "Type".
Open Scope Z_scope.

(** ** Values *)

(** Go's [error] values that can reach the pool: what a task returns, and
    [context.DeadlineExceeded], which is what [ct.Err()] is once [ct.Done()]
    is readable. *)
Inductive error :=
  | TaskError (code : nat)
  | DeadlineExceeded.

(** A caller-supplied [func() error].  [NilFunc] is the nil function value;
    a [Closure] terminates, has an observable effect (it is recorded in
    [ran] when it returns) and returns [ret] ([None] is a nil error). *)
Inductive Func :=
  | NilFunc
  | Closure (id : nat) (ret : option error).

(** [TaskHandler] values that travel through [p.task]: the caller's function
    as [Do] sends it (line 48), or the closure [DoWait] builds around it
    (lines 63-67), which captures [task] and [doneChan]. *)
Inductive TaskHandler :=
  | Given (fn : Func)
  | Wrapped (task : Func) (doneChan : nat).

(** [wt == nil] (line 78).  The closure of [DoWait] is never nil. *)
Definition is_nil (wt : TaskHandler) : bool :=
  match wt with
  | Given NilFunc => true
  | _ => false
  end.

Inductive Panic :=
  | SendOnClosedChannel
  | CloseOfClosedChannel
  | NilFuncCall
  | NegativeWaitGroup.

(** ** Go channels *)

Record Chan (A : Type) := MkChan {
  buf : list A;
  cap : Z;
  chan_closed : bool
}.
Arguments MkChan {A} _ _ _.
Arguments buf {A} _.
Arguments cap {A} _.
Arguments chan_closed {A} _.

Definition make {A} (n : Z) : Chan A := MkChan [] n false.

Inductive SendResult (A : Type) :=
  | Sent (c : Chan A)
  | SendBlocks
  | SendPanics.
Arguments Sent {A} _.
Arguments SendBlocks {A}.
Arguments SendPanics {A}.

(** [c <- x]: a panic on a closed channel, else it needs room in the buffer. *)
Definition send {A} (x : A) (c : Chan A) : SendResult A :=
  if chan_closed c then SendPanics
  else if Z.of_nat (length (buf c)) <? cap c
       then Sent (MkChan (buf c ++ [x]) (cap c) (chan_closed c))
       else SendBlocks.

Inductive RecvResult (A : Type) :=
  | Received (x : A) (c : Chan A)
  | RecvClosed
  | RecvBlocks.
Arguments Received {A} _ _.
Arguments RecvClosed {A}.
Arguments RecvBlocks {A}.

(** [<-c]: buffered values first, also after [close]; then a closed channel
    reports that it is closed and an open one blocks. *)
Definition recv {A} (c : Chan A) : RecvResult A :=
  match buf c with
  | x :: q => Received x (MkChan q (cap c) (chan_closed c))
  | [] => if chan_closed c then RecvClosed else RecvBlocks
  end.

(** [close(c)]: [None] is the panic of closing a closed channel. *)
Definition close {A} (c : Chan A) : option (Chan A) :=
  if chan_closed c then None else Some (MkChan (buf c) (cap c) true).

(** ** The pool *)

(** Modelled from the spec: the declaration of the [WorkerPool] struct is not
    in workerpool.go.  The fields are the ones the functions use, with the
    types of section 3 of the specification: [closed] is the int32 read and
    written through [sync/atomic], [start] is whether the [sync.Once] has
    run, [wg] is the counter of the [sync.WaitGroup]. *)
Record WorkerPool := MkPool {
  maxWorkersCount : Z;
  task : Chan TaskHandler;
  errChan : Chan error;
  closed : Z;
  timeout : Z;
  start : bool;
  wg : Z
}.

Definition set_task (c : Chan TaskHandler) (p : WorkerPool) : WorkerPool :=
  MkPool (maxWorkersCount p) c (errChan p) (closed p) (timeout p) (start p) (wg p).
Definition set_errChan (c : Chan error) (p : WorkerPool) : WorkerPool :=
  MkPool (maxWorkersCount p) (task p) c (closed p) (timeout p) (start p) (wg p).
Definition set_closed (v : Z) (p : WorkerPool) : WorkerPool :=
  MkPool (maxWorkersCount p) (task p) (errChan p) v (timeout p) (start p) (wg p).
Definition set_timeout (d : Z) (p : WorkerPool) : WorkerPool :=
  MkPool (maxWorkersCount p) (task p) (errChan p) (closed p) d (start p) (wg p).
Definition set_start (b : bool) (p : WorkerPool) : WorkerPool :=
  MkPool (maxWorkersCount p) (task p) (errChan p) (closed p) (timeout p) b (wg p).
Definition set_wg (n : Z) (p : WorkerPool) : WorkerPool :=
  MkPool (maxWorkersCount p) (task p) (errChan p) (closed p) (timeout p) (start p) n.

(** [New] (lines 13-23).  The fields the literal leaves out are zero. *)
Definition New (max : Z) : WorkerPool :=
  let max := if max <? 1 then 1 else max in
  {| maxWorkersCount := max;
     task := make max;
     errChan := make 1;
     closed := 0;
     timeout := 0;
     start := false;
     wg := 0 |}.

(** [SetTimeout] (lines 26-28). *)
Definition SetTimeout (d : Z) (p : WorkerPool) : WorkerPool := set_timeout d p.

(** [IsDone] (lines 128-134); [None] is the nil handle.  A pool made by [New]
    has a task channel, so [p.task == nil] does not arise. *)
Definition IsDone (p : option WorkerPool) : bool :=
  match p with
  | None => true
  | Some p => bool_decide (length (buf (task p)) = 0%nat)
  end.

(** ** Shared memory *)

(** Besides the pool: the [doneChan] of every [DoWait] call and the [closed]
    channel of every task run (both are only ever closed, so a flag each),
    the handlers whose function has returned, in order, what was passed to
    [mylog.Error], and the panic that stopped the program, if any. *)
Record Shared := MkShared {
  pool : WorkerPool;
  dones : list bool;
  fins : list bool;
  ran : list TaskHandler;
  logged : list error;
  panicked : option Panic
}.

Definition with_pool (f : WorkerPool → WorkerPool) (m : Shared) : Shared :=
  MkShared (f (pool m)) (dones m) (fins m) (ran m) (logged m) (panicked m).
Definition set_dones (l : list bool) (m : Shared) : Shared :=
  MkShared (pool m) l (fins m) (ran m) (logged m) (panicked m).
Definition set_fins (l : list bool) (m : Shared) : Shared :=
  MkShared (pool m) (dones m) l (ran m) (logged m) (panicked m).
Definition set_ran (l : list TaskHandler) (m : Shared) : Shared :=
  MkShared (pool m) (dones m) (fins m) l (logged m) (panicked m).
Definition set_logged (l : list error) (m : Shared) : Shared :=
  MkShared (pool m) (dones m) (fins m) (ran m) l (panicked m).
Definition panic (e : Panic) (m : Shared) : Shared :=
  MkShared (pool m) (dones m) (fins m) (ran m) (logged m) (Some e).

(** ** Threads *)

(** Where a caller is inside [Do] (lines 38-49). *)
Inductive DoPc :=
  | DoStart (fn : Func)   (* line 39: p.start.Do *)
  | DoLoad (fn : Func)    (* line 44: atomic.LoadInt32(&p.closed) *)
  | DoSend (fn : Func).   (* line 48: p.task <- fn *)

(** Where a caller is inside [DoWait] (lines 52-69). *)
Inductive DoWaitPc :=
  | DwStart (t : Func)             (* line 53 *)
  | DwLoad (t : Func)              (* line 58 *)
  | DwMake (t : Func)              (* line 62: doneChan := make(chan struct{}) *)
  | DwSend (t : Func) (d : nat)    (* line 63: p.task <- func() error {...} *)
  | DwRecv (t : Func) (d : nat).   (* line 68: <-doneChan *)

(** Where a caller is inside [Wait] (lines 116-125). *)
Inductive WaitPc :=
  | WaitClose    (* line 117 *)
  | WaitJoin     (* line 118 *)
  | WaitSelect.  (* lines 119-124 *)

Inductive Frame :=
  | InSetTimeout (d : Z)
  | InDo (pc : DoPc)
  | InDoWait (pc : DoWaitPc)
  | InWait (pc : WaitPc)
  | InIsDone.

Inductive Call :=
  | CallSetTimeout (d : Z)
  | CallDo (fn : Func)
  | CallDoWait (t : Func)
  | CallWait
  | CallIsDone.

(** Entering a call puts the caller at the first line of the function. *)
Definition enter (c : Call) : Frame :=
  match c with
  | CallSetTimeout d => InSetTimeout d
  | CallDo fn => InDo (DoStart fn)
  | CallDoWait t => InDoWait (DwStart t)
  | CallWait => InWait WaitClose
  | CallIsDone => InIsDone
  end.

Inductive Ret :=
  | RetWait (e : option error)
  | RetIsDone (b : bool).

(** Where a worker goroutine is (lines 74-111). *)
Inductive WorkerPc :=
  | WRange                                   (* line 77: for wt := range p.task *)
  | WCheck (wt : TaskHandler)                (* line 78 *)
  | WMake (wt : TaskHandler)                 (* lines 82-97 *)
  | WCall (wt : TaskHandler) (fin : nat)     (* line 99: wt() *)
  | WDone (t : Func) (d : nat) (err : option error) (fin : nat)
                                             (* line 65, within wt(): close(doneChan) *)
  | WClose (err : option error) (fin : nat)  (* line 100: close(closed) *)
  | WSelect (err : option error)             (* lines 101-103 *)
  | WLog (err : error)                       (* line 105 *)
  | WStore                                   (* line 106 *)
  | WDefer                                   (* line 75: p.wg.Done() *)
  | WExit.

(** Where a watchdog goroutine is (lines 86-96). *)
Inductive WatchdogPc :=
  | WdSelect (expired : bool)  (* line 87; [expired]: ct.Done() is readable *)
  | WdSend                     (* line 89: p.errChan <- ct.Err() *)
  | WdLog                      (* line 91 *)
  | WdStore                    (* line 92 *)
  | WdCancel.                  (* line 93 *)

Inductive Thread :=
  | Client (fr : option Frame) (script : list Call) (rets : list Ret)
  | Looping (i : Z)
  | Worker (pc : WorkerPc)
  | Watchdog (pc : WatchdogPc) (fin : nat)
  | Exited.

(** What one action of a thread yields: the thread afterwards, the memory
    afterwards, the goroutines it started. *)
Definition Outcome (A : Type) : Type := option (A * Shared * list Thread).

Definition goto {A} (x : A) (m : Shared) : Outcome A := Some (x, m, []).

(** ** The functions of the source, action by action *)

(** [p.start.Do(func() { p.wg.Add(p.maxWorkersCount); go p.loop() })]
    (lines 39-42 and 53-56): the body runs for the first caller only. *)
Definition start_Do (m : Shared) : Shared * list Thread :=
  if start (pool m) then (m, [])
  else (with_pool (λ p, set_start true (set_wg (wg p + maxWorkersCount p) p)) m,
        [Looping 0]).

(** [Do] (lines 38-49); [None] as the next position is the return. *)
Definition Do (pc : DoPc) (m : Shared) : Outcome (option DoPc) :=
  match pc with
  | DoStart fn =>
      let '(m', sp) := start_Do m in Some (Some (DoLoad fn), m', sp)
  | DoLoad fn =>
      if closed (pool m) =? 1 then goto None m else goto (Some (DoSend fn)) m
  | DoSend fn =>
      match send (Given fn) (task (pool m)) with
      | Sent c => goto None (with_pool (set_task c) m)
      | SendBlocks => None
      | SendPanics => goto (Some pc) (panic SendOnClosedChannel m)
      end
  end.

(** [DoWait] (lines 52-69). *)
Definition DoWait (pc : DoWaitPc) (m : Shared) : Outcome (option DoWaitPc) :=
  match pc with
  | DwStart t =>
      let '(m', sp) := start_Do m in Some (Some (DwLoad t), m', sp)
  | DwLoad t =>
      if closed (pool m) =? 1 then goto None m else goto (Some (DwMake t)) m
  | DwMake t =>
      goto (Some (DwSend t (length (dones m)))) (set_dones (dones m ++ [false]) m)
  | DwSend t d =>
      match send (Wrapped t d) (task (pool m)) with
      | Sent c => goto (Some (DwRecv t d)) (with_pool (set_task c) m)
      | SendBlocks => None
      | SendPanics => goto (Some pc) (panic SendOnClosedChannel m)
      end
  | DwRecv t d =>
      match dones m !! d with
      | Some true => goto None m
      | _ => None
      end
  end.

(** [Wait] (lines 116-125); [inr e] is the return of [e]. *)
Definition Wait (pc : WaitPc) (m : Shared) : Outcome (WaitPc + option error) :=
  match pc with
  | WaitClose =>
      match close (task (pool m)) with
      | Some c => goto (inl WaitJoin) (with_pool (set_task c) m)
      | None => goto (inl pc) (panic CloseOfClosedChannel m)
      end
  | WaitJoin =>
      if wg (pool m) =? 0 then goto (inl WaitSelect) m else None
  | WaitSelect =>
      match recv (errChan (pool m)) with
      | Received err c => goto (inr (Some err)) (with_pool (set_errChan c) m)
      | RecvClosed => goto (inr None) m
      | RecvBlocks => goto (inr None) m
      end
  end.

(** [loop] (lines 71-113): the goroutine that starts the workers. *)
Definition loop (i : Z) (m : Shared) : Outcome Thread :=
  if i <? maxWorkersCount (pool m)
  then Some (Looping (i + 1), m, [Worker WRange])
  else goto Exited m.

(** The body of a worker goroutine (lines 74-111).  The worker is at
    [WCall] for as long as the task runs; the action there is its return. *)
Definition worker (pc : WorkerPc) (m : Shared) : Outcome WorkerPc :=
  match pc with
  | WRange =>
      match recv (task (pool m)) with
      | Received wt c => goto (WCheck wt) (with_pool (set_task c) m)
      | RecvClosed => goto WDefer m
      | RecvBlocks => None
      end
  | WCheck wt =>
      if is_nil wt || (closed (pool m) =? 1)
      then goto WRange m
      else goto (WMake wt) m
  | WMake wt =>
      Some (WCall wt (length (fins m)),
            set_fins (fins m ++ [false]) m,
            if 0 <? timeout (pool m)
            then [Watchdog (WdSelect false) (length (fins m))]
            else [])
  | WCall wt fin =>
      match wt with
      | Given NilFunc => goto pc (panic NilFuncCall m)
      | Given (Closure _ ret) => goto (WClose ret fin) (set_ran (ran m ++ [wt]) m)
      | Wrapped NilFunc _ => goto pc (panic NilFuncCall m)
      | Wrapped (Closure _ ret as t) d =>
          goto (WDone t d ret fin) (set_ran (ran m ++ [wt]) m)
      end
  | WDone t d err fin =>
      match dones m !! d with
      | Some false => goto (WClose err fin) (set_dones (<[d:=true]> (dones m)) m)
      | _ => goto pc (panic CloseOfClosedChannel m)
      end
  | WClose err fin =>
      match fins m !! fin with
      | Some false => goto (WSelect err) (set_fins (<[fin:=true]> (fins m)) m)
      | _ => goto pc (panic CloseOfClosedChannel m)
      end
  | WSelect err =>
      match err with
      | None => goto WRange m
      | Some e =>
          match send e (errChan (pool m)) with
          | Sent c => goto (WLog e) (with_pool (set_errChan c) m)
          | SendBlocks => goto WRange m
          | SendPanics => goto pc (panic SendOnClosedChannel m)
          end
      end
  | WLog e => goto WStore (set_logged (logged m ++ [e]) m)
  | WStore => goto WRange (with_pool (set_closed 1) m)
  | WDefer =>
      if wg (pool m) - 1 <? 0
      then goto pc (panic NegativeWaitGroup m)
      else goto WExit (with_pool (λ p, set_wg (wg p - 1) p) m)
  | WExit => None
  end.

(** What a scheduler can make a thread do: take its next action, let the
    deadline of a watchdog's context pass, or resolve a watchdog's [select]
    by [case <-ct.Done()] ([Run] resolves it by [case <-closed]).  Real time
    is not modelled: a deadline may pass at any moment after the context is
    made.  As in Go, a [select] with both cases ready takes either; a
    [select] with no case ready waits.  (A [select] that was already waiting
    is also allowed the case that became ready second, which Go does not do;
    this only adds schedules.) *)
Inductive Kind := Run | Expire | Deadline.

(** The watchdog goroutine (lines 86-96). *)
Definition watchdog (k : Kind) (pc : WatchdogPc) (fin : nat) (m : Shared)
    : Outcome Thread :=
  match k, pc with
  | Expire, WdSelect false => goto (Watchdog (WdSelect true) fin) m
  | Deadline, WdSelect true => goto (Watchdog WdSend fin) m
  | Run, WdSelect _ =>
      match fins m !! fin with
      | Some true => goto Exited m
      | _ => None
      end
  | Run, WdSend =>
      match send DeadlineExceeded (errChan (pool m)) with
      | Sent c => goto (Watchdog WdLog fin) (with_pool (set_errChan c) m)
      | SendBlocks => None
      | SendPanics => goto (Watchdog pc fin) (panic SendOnClosedChannel m)
      end
  | Run, WdLog =>
      goto (Watchdog WdStore fin) (set_logged (logged m ++ [DeadlineExceeded]) m)
  | Run, WdStore => goto (Watchdog WdCancel fin) (with_pool (set_closed 1) m)
  | Run, WdCancel => goto Exited m
  | _, _ => None
  end.

(** A caller: the call it is in, the calls it has yet to make, and what
    [Wait] and [IsDone] have returned to it. *)
Definition in_frame (fr : Frame) (script : list Call) (rets : list Ret)
    (m : Shared) : Outcome Thread :=
  match fr with
  | InSetTimeout d =>
      goto (Client None script rets) (with_pool (SetTimeout d) m)
  | InDo pc =>
      '(r, m', sp) ← Do pc m;
      Some (Client (InDo <$> r) script rets, m', sp)
  | InDoWait pc =>
      '(r, m', sp) ← DoWait pc m;
      Some (Client (InDoWait <$> r) script rets, m', sp)
  | InWait pc =>
      '(r, m', sp) ← Wait pc m;
      Some (match r with
            | inl pc' => Client (Some (InWait pc')) script rets
            | inr e => Client None script (rets ++ [RetWait e])
            end, m', sp)
  | InIsDone =>
      goto (Client None script (rets ++ [RetIsDone (IsDone (Some (pool m)))])) m
  end.

Definition client (fr : option Frame) (script : list Call) (rets : list Ret)
    (m : Shared) : Outcome Thread :=
  match fr, script with
  | Some f, _ => in_frame f script rets m
  | None, [] => None
  | None, c :: rest => goto (Client (Some (enter c)) rest rets) m
  end.

Definition thread_step (k : Kind) (t : Thread) (m : Shared) : Outcome Thread :=
  match t, k with
  | Client fr script rets, Run => client fr script rets m
  | Looping i, Run => loop i m
  | Worker pc, Run => '(pc', m', sp) ← worker pc m; Some (Worker pc', m', sp)
  | Watchdog pc fin, _ => watchdog k pc fin m
  | _, _ => None
  end.

(** ** The program *)

Record State := MkState {
  mem : Shared;
  threads : list Thread
}.

Definition Action : Type := Kind * nat.

(** One action of thread [a.2].  A panic stops the program: the action
    that panics leaves its thread where it was, and no action follows. *)
Definition step (s : State) (a : Action) : option State :=
  match panicked (mem s) with
  | Some _ => None
  | None =>
      t ← threads s !! a.2;
      '(t', m', sp) ← thread_step a.1 t (mem s);
      Some (MkState m' (<[a.2:=t']> (threads s) ++ sp))
  end.

Fixpoint run (s : State) (acts : list Action) : option State :=
  match acts with
  | [] => Some s
  | a :: rest => s' ← step s a; run s' rest
  end.

(** The pool [New(max)] in the hands of callers that each make the calls
    of a script; no goroutine of the pool exists yet. *)
Definition init (max : Z) (scripts : list (list Call)) : State :=
  MkState (MkShared (New max) [] [] [] [] None)
          ((λ sc, Client None sc []) <$> scripts).

Definition reachable (s : State) : Prop :=
  ∃ max scripts acts, run (init max scripts) acts = Some s.

(** ** Measures used by the invariants *)

Definition sumZ {A} (f : A → Z) (l : list A) : Z :=
  foldr (λ x acc, f x + acc) 0 l.

(** What a thread still owes to [p.wg]: a worker that has not yet run its
    deferred [p.wg.Done()] owes one, [loop] owes one for every worker it has
    yet to start. *)
Definition owes (max : Z) (t : Thread) : Z :=
  match t with
  | Worker WExit => 0
  | Worker _ => 1
  | Looping i => max - i
  | _ => 0
  end.

(** Workers that have terminated. *)
Definition terminated (t : Thread) : Z :=
  match t with
  | Worker WExit => 1
  | _ => 0
  end.

(** The [DoWait] closure a handler is, as the pair of what it captured. *)
Definition tag (wt : TaskHandler) : list (Func * nat) :=
  match wt with
  | Given _ => []
  | Wrapped t d => [(t, d)]
  end.

(** The pairs [(task, doneChan)] a thread has in its variables. *)
Definition tags (t : Thread) : list (Func * nat) :=
  match t with
  | Client (Some (InDoWait (DwSend t d))) _ _ => [(t, d)]
  | Client (Some (InDoWait (DwRecv t d))) _ _ => [(t, d)]
  | Worker (WCheck wt) => tag wt
  | Worker (WMake wt) => tag wt
  | Worker (WCall wt _) => tag wt
  | Worker (WDone t d _ _) => [(t, d)]
  | _ => []
  end.

(** The pairs in the queue and in the record of what ran. *)
Definition mtags (m : Shared) : list (Func * nat) :=
  (buf (task (pool m)) ≫= tag) ++ (ran m ≫= tag).

(** [1] if the handler is the closure whose [close(doneChan)] closes
    channel [d]. *)
Definition closes (d : nat) (wt : TaskHandler) : Z :=
  match wt with
  | Wrapped _ d' => if decide (d' = d) then 1 else 0
  | Given _ => 0
  end.

(** [1] if the thread has that closure in hand and line 65 is still ahead:
    the caller about to send it, the worker between the receive and the
    [close(doneChan)]. *)
Definition holds (d : nat) (t : Thread) : Z :=
  match t with
  | Client (Some (InDoWait (DwSend t' d'))) _ _ => closes d (Wrapped t' d')
  | Worker (WCheck wt) => closes d wt
  | Worker (WMake wt) => closes d wt
  | Worker (WCall wt _) => closes d wt
  | Worker (WDone t' d' _ _) => closes d (Wrapped t' d')
  | _ => 0
  end.

(** All the places the closure of channel [d] is in. *)
Definition holders (d : nat) (s : State) : Z :=
  sumZ (holds d) (threads s) + sumZ (closes d) (buf (task (pool (mem s)))).

(** The caller whose [DoWait] made channel [d] is still inside that call. *)
Definition awaits (d : nat) (t : Thread) : bool :=
  match t with
  | Client (Some (InDoWait (DwSend _ d'))) _ _ => bool_decide (d' = d)
  | Client (Some (InDoWait (DwRecv _ d'))) _ _ => bool_decide (d' = d)
  | _ => false
  end.

(** The function a handler calls and what that call returns. *)
Definition func_of (wt : TaskHandler) : Func :=
  match wt with
  | Given fn => fn
  | Wrapped t _ => t
  end.

(** The pairs [(task, doneChan)] that exist anywhere in a state. *)
Definition tagged (s : State) (p : Func * nat) : Prop :=
  p ∈ (threads s ≫= tags) ++ mtags (mem s).

(** The share of [holders d] that one action can change: the acting
    thread, what it starts, and the queue. *)
Definition local_holders (d : nat) (t : Thread) (sp : list Thread) (m : Shared) : Z :=
  holds d t + sumZ (holds d) sp + sumZ (closes d) (buf (task (pool m))).

(** The functions a call submits. *)
Definition call_funcs (c : Call) : list Func :=
  match c with
  | CallDo fn => [fn]
  | CallDoWait t => [t]
  | _ => []
  end.

(** The functions a thread may still hand to a worker or run. *)
Definition thread_funcs (t : Thread) : list Func :=
  match t with
  | Client fr script _ =>
      match fr with
      | Some (InDo (DoStart fn)) => [fn]
      | Some (InDo (DoLoad fn)) => [fn]
      | Some (InDo (DoSend fn)) => [fn]
      | Some (InDoWait (DwStart t)) => [t]
      | Some (InDoWait (DwLoad t)) => [t]
      | Some (InDoWait (DwMake t)) => [t]
      | Some (InDoWait (DwSend t _)) => [t]
      | _ => []
      end ++ (script ≫= call_funcs)
  | Worker (WCheck wt) => [func_of wt]
  | Worker (WMake wt) => [func_of wt]
  | Worker (WCall wt _) => [func_of wt]
  | _ => []
  end.

(** The functions that are submitted, queued or about to run in a state. *)
Definition pending (s : State) : list Func :=
  (threads s ≫= thread_funcs) ++ (func_of <$> buf (task (pool (mem s)))).

(** ** Invariants of the reachable states *)

(** [p.wg] counts what the threads still owe it, and the workers that have
    terminated are the ones it no longer counts. *)
Definition joined_inv (s : State) : Prop :=
  let p := pool (mem s) in
  1 ≤ maxWorkersCount p ∧
  (∀ t, t ∈ threads s → 0 ≤ owes (maxWorkersCount p) t) ∧
  wg p = sumZ (owes (maxWorkersCount p)) (threads s) ∧
  sumZ terminated (threads s) + wg p = (if start p then maxWorkersCount p else 0).

(** Every [doneChan] in use has been made, belongs to one task, and is
    closed only once the closure around that task has called it. *)
Definition wrap_inv (s : State) : Prop :=
  (∀ p, tagged s p → (p.2 < length (dones (mem s)))%nat) ∧
  (∀ f f' d, tagged s (f, d) → tagged s (f', d) → f = f') ∧
  (∀ d, dones (mem s) !! d = Some true → ∃ f, Wrapped f d ∈ ran (mem s)) ∧
  (∀ tid f d e fin, threads s !! tid = Some (Worker (WDone f d e fin)) →
     Wrapped f d ∈ ran (mem s)).

(** The closure of a [doneChan] is in one place at most, in none once the
    channel is closed, and the caller that made an open channel is still
    inside its [DoWait]. *)
Definition hold_inv (s : State) : Prop :=
  (∀ d, holders d s ≤ 1) ∧
  (∀ d, (length (dones (mem s)) ≤ d)%nat → holders d s = 0) ∧
  (∀ d, dones (mem s) !! d = Some true → holders d s = 0) ∧
  (∀ d, dones (mem s) !! d = Some false →
     ∃ tid t, threads s !! tid = Some t ∧ awaits d t = true).

Definition inv (s : State) : Prop := joined_inv s ∧ wrap_inv s ∧ hold_inv s.

(** Channel [d] is open and nothing is left that could close it. *)
Definition abandoned (d : nat) (s : State) : Prop :=
  dones (mem s) !! d = Some false ∧ holders d s = 0.

(** ** Measures and invariants for the further properties *)

(** [1] for a worker goroutine, whatever it is doing. *)
Definition is_worker (t : Thread) : Z :=
  match t with
  | Worker _ => 1
  | _ => 0
  end.

(** The workers [loop] has yet to start. *)
Definition to_start (max : Z) (t : Thread) : Z :=
  match t with
  | Looping i => max - i
  | _ => 0
  end.

(** A worker that is past its [range] loop. *)
Definition left_loop (t : Thread) : bool :=
  match t with
  | Worker WDefer | Worker WExit => true
  | _ => false
  end.

(** A caller that is past the [p.start.Do] of [Do] or [DoWait]. *)
Definition past_start (t : Thread) : bool :=
  match t with
  | Client (Some (InDo (DoLoad _))) _ _
  | Client (Some (InDo (DoSend _))) _ _
  | Client (Some (InDoWait (DwLoad _))) _ _
  | Client (Some (InDoWait (DwMake _))) _ _
  | Client (Some (InDoWait (DwSend _ _))) _ _
  | Client (Some (InDoWait (DwRecv _ _))) _ _ => true
  | _ => false
  end.

(** The queue is as [New] made it, filled within its capacity, and empty
    both before the pool is started and once a worker has left its loop. *)
Definition queue_inv (s : State) : Prop :=
  let p := pool (mem s) in
  cap (task p) = maxWorkersCount p ∧
  Z.of_nat (length (buf (task p))) ≤ cap (task p) ∧
  (start p = false →
   buf (task p) = [] ∧ ∀ t, t ∈ threads s → past_start t = false) ∧
  (∀ t, t ∈ threads s → left_loop t = true →
   chan_closed (task p) = true ∧ buf (task p) = []).

#[global] Instance error_eq_dec : EqDecision error.
Proof. solve_decision. Defined.
#[global] Instance Func_eq_dec : EqDecision Func.
Proof. solve_decision. Defined.

(** [1] if the handler calls [f]. *)
Definition calls (f : Func) (wt : TaskHandler) : Z :=
  if decide (func_of wt = f) then 1 else 0.

(** How often a call submits [f]. *)
Definition submits (f : Func) (c : Call) : Z :=
  match c with
  | CallDo fn => if decide (fn = f) then 1 else 0
  | CallDoWait t => if decide (t = f) then 1 else 0
  | _ => 0
  end.

(** How often a thread may still hand [f] to the queue or run it. *)
Definition wants (f : Func) (t : Thread) : Z :=
  match t with
  | Client fr script _ =>
      match fr with
      | Some (InDo (DoStart fn)) => calls f (Given fn)
      | Some (InDo (DoLoad fn)) => calls f (Given fn)
      | Some (InDo (DoSend fn)) => calls f (Given fn)
      | Some (InDoWait (DwStart t)) => calls f (Given t)
      | Some (InDoWait (DwLoad t)) => calls f (Given t)
      | Some (InDoWait (DwMake t)) => calls f (Given t)
      | Some (InDoWait (DwSend t _)) => calls f (Given t)
      | _ => 0
      end + sumZ (submits f) script
  | Worker (WCheck wt) => calls f wt
  | Worker (WMake wt) => calls f wt
  | Worker (WCall wt _) => calls f wt
  | _ => 0
  end.

(** The runs of [f] so far and the ones that may still come. *)
Definition runs_and_pending (f : Func) (s : State) : Z :=
  sumZ (calls f) (ran (mem s)) + sumZ (calls f) (buf (task (pool (mem s))))
  + sumZ (wants f) (threads s).

(** [1] for a return of [Wait] that is an error. *)
Definition is_error (r : Ret) : Z :=
  match r with
  | RetWait (Some _) => 1
  | _ => 0
  end.

(** The errors [Wait] has returned to a caller. *)
Definition got_error (t : Thread) : Z :=
  match t with
  | Client _ _ rets => sumZ is_error rets
  | _ => 0
  end.

(** The errors that have reached the error slot: the ones in it and the
    ones [Wait] has taken out of it. *)
Definition latched (s : State) : Z :=
  Z.of_nat (length (buf (errChan (pool (mem s))))) + sumZ got_error (threads s).

(** A goroutine between its write to the error slot and its store to the
    closed flag (lines 105-106, lines 91-92). *)
Definition storing (t : Thread) : bool :=
  match t with
  | Worker (WLog _) | Worker WStore => true
  | Watchdog WdLog _ | Watchdog WdStore _ => true
  | _ => false
  end.

(** A worker that holds the error its task returned and has not yet tried
    to write it (lines 99-103). *)
Definition carrying (t : Thread) : Z :=
  match t with
  | Worker (WDone _ _ (Some _) _) => 1
  | Worker (WClose (Some _) _) => 1
  | Worker (WSelect (Some _)) => 1
  | _ => 0
  end.

(** [1] if the function the handler calls returns an error. *)
Definition fails (wt : TaskHandler) : Z :=
  match func_of wt with
  | Closure _ (Some _) => 1
  | _ => 0
  end.

Definition latch_inv (s : State) : Prop :=
  cap (errChan (pool (mem s))) = 1 ∧
  (closed (pool (mem s)) = 1 ∨ (∃ t, t ∈ threads s ∧ storing t = true) →
   1 ≤ latched s) ∧
  (1 ≤ sumZ fails (ran (mem s)) →
   1 ≤ latched s ∨ ∃ t, t ∈ threads s ∧ carrying t = 1).

(** The error a return of [Wait] is, if it is one. *)
Definition ret_error (r : Ret) : list error :=
  match r with
  | RetWait (Some e) => [e]
  | _ => []
  end.

(** The errors a thread has in its variables: what the task of a worker
    returned, what [Wait] returned to a caller. *)
Definition errs_of (t : Thread) : list error :=
  match t with
  | Client _ _ rets => rets ≫= ret_error
  | Worker (WDone _ _ (Some e) _) => [e]
  | Worker (WClose (Some e) _) => [e]
  | Worker (WSelect (Some e)) => [e]
  | Worker (WLog e) => [e]
  | _ => []
  end.

(** Every error there is in a state: with the threads, in the error slot,
    in the log. *)
Definition errors (s : State) : list error :=
  (threads s ≫= errs_of) ++ buf (errChan (pool (mem s))) ++ logged (mem s).

(** [e] is what a task that ran returned. *)
Definition returned_by_task (e : error) (m : Shared) : Prop :=
  ∃ wt id, wt ∈ ran m ∧ func_of wt = Closure id (Some e).

(** A call that does not set a positive timeout. *)
Definition no_timeout_call (c : Call) : bool :=
  match c with
  | CallSetTimeout d => bool_decide (d ≤ 0)
  | _ => true
  end.

(** A thread that is no watchdog and will not set a positive timeout. *)
Definition no_timeout_thread (t : Thread) : bool :=
  match t with
  | Client fr script _ =>
      match fr with
      | Some (InSetTimeout d) => bool_decide (d ≤ 0)
      | _ => true
      end && forallb no_timeout_call script
  | Watchdog _ _ => false
  | _ => true
  end.

Definition no_timeout_inv (s : State) : Prop :=
  timeout (pool (mem s)) ≤ 0 ∧
  (∀ t, t ∈ threads s → no_timeout_thread t = true) ∧
  (∀ e, e ∈ errors s → returned_by_task e (mem s)).

(** [1] if the worker is the one whose line 100 closes the [closed] channel
    [fin] and that line is still ahead. *)
Definition finishes (fin : nat) (t : Thread) : Z :=
  match t with
  | Worker (WCall _ fin') => if decide (fin' = fin) then 1 else 0
  | Worker (WDone _ _ _ fin') => if decide (fin' = fin) then 1 else 0
  | Worker (WClose _ fin') => if decide (fin' = fin) then 1 else 0
  | _ => 0
  end.

(** A worker past the check of line 78 with a nil handler. *)
Definition runs_nil (t : Thread) : bool :=
  match t with
  | Worker (WMake wt) => is_nil wt
  | Worker (WCall wt _) => is_nil wt
  | _ => false
  end.

(** Every [closed] channel of a task run is closed by one worker, once; and
    no worker goes past line 78 with a nil handler. *)
Definition run_inv (s : State) : Prop :=
  (∀ fin, sumZ (finishes fin) (threads s) ≤ 1) ∧
  (∀ fin, (length (fins (mem s)) ≤ fin)%nat → sumZ (finishes fin) (threads s) = 0) ∧
  (∀ fin, fins (mem s) !! fin = Some true → sumZ (finishes fin) (threads s) = 0) ∧
  (∀ t, t ∈ threads s → runs_nil t = false).

Definition is_RetWait (r : Ret) : bool :=
  match r with
  | RetWait _ => true
  | _ => false
  end.

(** A caller that has executed line 117 of [Wait]. *)
Definition has_closed (t : Thread) : bool :=
  match t with
  | Client fr _ rets =>
      match fr with
      | Some (InWait WaitJoin) | Some (InWait WaitSelect) => true
      | _ => false
      end || existsb is_RetWait rets
  | _ => false
  end.

(** A call other than [Wait] and [DoWait(nil)]. *)
Definition tame_call (c : Call) : bool :=
  match c with
  | CallWait => false
  | CallDoWait NilFunc => false
  | _ => true
  end.

(** A handler other than the closure of [DoWait(nil)]. *)
Definition tame_item (wt : TaskHandler) : bool :=
  match wt with
  | Wrapped NilFunc _ => false
  | _ => true
  end.

(** A thread that is not in [Wait] or [DoWait(nil)], will not call them, and
    has no closure of [DoWait(nil)] in hand. *)
Definition tame_thread (t : Thread) : bool :=
  match t with
  | Client fr script _ =>
      match fr with
      | Some (InWait _) => false
      | Some (InDoWait (DwStart NilFunc)) => false
      | Some (InDoWait (DwLoad NilFunc)) => false
      | Some (InDoWait (DwMake NilFunc)) => false
      | Some (InDoWait (DwSend NilFunc _)) => false
      | _ => true
      end && forallb tame_call script
  | Worker (WCheck wt) => tame_item wt
  | Worker (WMake wt) => tame_item wt
  | Worker (WCall wt _) => tame_item wt
  | _ => true
  end.

Definition tame_inv (s : State) : Prop :=
  chan_closed (task (pool (mem s))) = false ∧
  (∀ t, t ∈ threads s → tame_thread t = true) ∧
  (∀ wt, wt ∈ buf (task (pool (mem s))) → tame_item wt = true).

(** [1] for a caller. *)
Definition is_client (t : Thread) : Z :=
  match t with
  | Client _ _ _ => 1
  | _ => 0
  end.

(** The function a worker has received and not yet run or discarded. *)
Definition inflight (t : Thread) : list Func :=
  match t with
  | Worker (WCheck wt) => [func_of wt]
  | Worker (WMake wt) => [func_of wt]
  | Worker (WCall wt _) => [func_of wt]
  | _ => []
  end.

(** The functions a caller has yet to send, in the order of its calls. *)
Definition tosubmit (t : Thread) : list Func :=
  match t with
  | Client fr script _ =>
      match fr with
      | Some (InDo (DoStart fn)) => [fn]
      | Some (InDo (DoLoad fn)) => [fn]
      | Some (InDo (DoSend fn)) => [fn]
      | Some (InDoWait (DwStart t)) => [t]
      | Some (InDoWait (DwLoad t)) => [t]
      | Some (InDoWait (DwMake t)) => [t]
      | Some (InDoWait (DwSend t _)) => [t]
      | _ => []
      end ++ (script ≫= call_funcs)
  | _ => []
  end.

(** What has run, what the workers hold, what is queued, what is yet to be
    sent: with one caller and one worker this is the order of submission
    with the dropped tasks left out. *)
Definition order (s : State) : list Func :=
  (func_of <$> ran (mem s)) ++ (threads s ≫= inflight)
  ++ (func_of <$> buf (task (pool (mem s)))) ++ (threads s ≫= tosubmit).

(** A caller that has returned from its last call; any other goroutine. *)
Definition idle (t : Thread) : bool :=
  match t with
  | Client None [] _ => true
  | Client _ _ _ => false
  | _ => true
  end.

(** ** Schedules used as examples *)

Definition by_thread (tid : nat) (n : nat) : list Action := replicate n (Run, tid).

Definition state_after (s : State) (acts : list Action) : State :=
  default s (run s acts).

(** [p := New(2); p.SetTimeout(5); p.Do(f1); p.Do(f2); p.Wait()], both
    tasks slower than the timeout.  Threads: 0 the caller, 1 [loop], 2 and 3
    the workers, 4 and 5 their watchdogs. *)
Definition two_slow_tasks : State :=
  init 2 [[CallSetTimeout 5; CallDo (Closure 1 None); CallDo (Closure 2 None);
           CallWait]].

(** Both tasks are running and the first deadline has passed: watchdog 4
    is about to send. *)
Definition first_deadline_passes : list Action :=
  by_thread 0 10 ++ by_thread 1 3 ++ by_thread 2 3 ++ by_thread 3 3 ++
  [(Expire, 4%nat); (Deadline, 4%nat)].

(** Both deadlines pass while the tasks run; watchdog 4 has sent. *)
Definition both_deadlines_pass : list Action :=
  by_thread 0 10 ++ by_thread 1 3 ++ by_thread 2 3 ++ by_thread 3 3 ++
  [(Expire, 4%nat); (Expire, 5%nat); (Deadline, 4%nat); (Deadline, 5%nat);
   (Run, 4%nat)].

(** Watchdog 4 finishes, the tasks return, the caller enters [Wait] and
    closes the queue, the workers terminate. *)
Definition tasks_return : list Action :=
  by_thread 4 3 ++ by_thread 2 3 ++ by_thread 3 3 ++ by_thread 0 2 ++
  by_thread 2 2 ++ by_thread 3 2.

(** The join and the read of the error slot. *)
Definition Wait_returns : list Action := by_thread 0 2.

Definition first_deadline_passed : State :=
  Eval vm_compute in state_after two_slow_tasks first_deadline_passes.

Definition workers_joined : State :=
  Eval vm_compute in state_after two_slow_tasks (both_deadlines_pass ++ tasks_return).

Definition Wait_returned : State :=
  Eval vm_compute in
    state_after two_slow_tasks (both_deadlines_pass ++ tasks_return ++ Wait_returns).

(** [Do] and [Wait] from two goroutines: [Do] passes its check, then
    [Wait] closes the queue. *)
Definition Do_races_Wait : State := init 1 [[CallDo (Closure 0 None)]; [CallWait]].
Definition check_then_close : list Action := by_thread 0 3 ++ by_thread 1 2.

Definition DoWait_races_Wait : State :=
  init 1 [[CallDoWait (Closure 0 None)]; [CallWait]].
Definition make_then_close : list Action := by_thread 0 4 ++ by_thread 1 2.

Definition Do_checked_Wait_closed : State :=
  Eval vm_compute in state_after Do_races_Wait check_then_close.

(** A failing task, then [DoWait]: the closure is sent while the first task
    runs, the error closes the pool, the worker receives the closure. *)
Definition failing_then_DoWait : State :=
  init 1 [[CallDo (Closure 1 (Some (TaskError 7))); CallDoWait (Closure 2 None);
           CallWait]].
Definition error_closes_pool : list Action :=
  by_thread 0 4 ++ by_thread 1 2 ++ by_thread 2 3 ++ by_thread 0 5 ++ by_thread 2 6.

Definition closure_queued_when_closed : State :=
  Eval vm_compute in
    state_after failing_then_DoWait
      (by_thread 0 4 ++ by_thread 1 2 ++ by_thread 2 3 ++ by_thread 0 5 ++
       by_thread 2 5).

Definition closure_received_when_closed : State :=
  Eval vm_compute in state_after failing_then_DoWait error_closes_pool.

(** One [DoWait] whose task runs; the worker has just closed [doneChan]. *)
Definition one_DoWait : State := init 1 [[CallDoWait (Closure 1 None)]].
Definition task_completes : list Action :=
  by_thread 0 5 ++ by_thread 1 1 ++ by_thread 2 5.

Definition doneChan_closed : State :=
  Eval vm_compute in state_after one_DoWait task_completes.

(** A failing task, then [Do] once the error has closed the pool. *)
Definition failing_then_Do : State :=
  init 1 [[CallDo (Closure 1 (Some (TaskError 7))); CallDo (Closure 2 None)]].
Definition error_then_submit : list Action :=
  by_thread 0 4 ++ by_thread 1 1 ++ by_thread 2 8 ++ by_thread 0 2.

Definition Do_at_check_when_closed : State :=
  Eval vm_compute in state_after failing_then_Do error_then_submit.

(** [p := New(1); p.Do(f); p.Wait()] with [f] returning an error: the task
    runs and fails, the queue is closed, the worker terminates. *)
Definition one_failing_task : State :=
  init 1 [[CallDo (Closure 1 (Some (TaskError 7))); CallWait]].
Definition fail_and_join : list Action :=
  by_thread 0 4 ++ by_thread 1 2 ++ by_thread 2 8 ++ by_thread 0 2 ++ by_thread 2 2.

Definition failed_and_joined : State :=
  Eval vm_compute in state_after one_failing_task fail_and_join.

Definition failure_reported : State :=
  Eval vm_compute in state_after one_failing_task (fail_and_join ++ by_thread 0 2).

(** [p := New(1); p.Do(f1); p.Do(f2); p.Wait()], both tasks succeeding, to
    the return of [Wait]. *)
Definition two_tasks_one_worker : State :=
  init 1 [[CallDo (Closure 1 None); CallDo (Closure 2 None); CallWait]].
Definition run_both_and_Wait : list Action :=
  by_thread 0 4 ++ by_thread 1 2 ++ by_thread 2 3 ++ by_thread 0 4 ++
  by_thread 2 9 ++ by_thread 0 2 ++ by_thread 2 2 ++ by_thread 0 2.

Definition both_ran_Wait_returned : State :=
  Eval vm_compute in state_after two_tasks_one_worker run_both_and_Wait.


(** [p := New(1); p.SetTimeout(5); p.Do(f); p.Wait()] with [f] returning nil:
    the worker starts the watchdog, runs [f] and closes [closed], while the
    watchdog (thread 3) has not run and its deadline has not passed.  Then
    the deadline passes and the watchdog takes [case <-ct.Done()]. *)
Definition one_quick_task : State :=
  init 1 [[CallSetTimeout 5; CallDo (Closure 1 None); CallWait]].
Definition task_returns_in_time : list Action :=
  by_thread 0 6 ++ by_thread 1 2 ++ by_thread 2 6.

Definition returned_in_time : State :=
  Eval vm_compute in state_after one_quick_task task_returns_in_time.

Definition deadline_then_Done : list Action :=
  [(Expire, 3%nat); (Deadline, 3%nat)] ++ by_thread 3 4.
Definition Wait_after_deadline : list Action :=
  by_thread 0 2 ++ by_thread 2 2 ++ by_thread 0 2.

(** ** Tactics *)

(** All the ways [thread_step k t m = Some _] can hold, one goal each. *)
Ltac thread_cases H :=
  unfold thread_step, client, in_frame, Do, DoWait, Wait, loop, worker,
    watchdog, start_Do, goto, send, recv, close, enter in H;
  repeat (case_match; simplify_option_eq; try done).

(** Replace a channel's buffer by what the case at hand knows it is. *)
Ltac use_buf :=
  repeat match goal with
  | H : buf ?c = _ |- context [buf ?c] => rewrite H
  end.

(** The tests of the source as propositions. *)
Ltac bool_to_Z :=
  repeat match goal with
  | H : (_ <? _) = true |- _ => apply Z.ltb_lt in H
  | H : (_ <? _) = false |- _ => apply Z.ltb_ge in H
  | H : (_ =? _) = true |- _ => apply Z.eqb_eq in H
  | H : (_ =? _) = false |- _ => apply Z.eqb_neq in H
  | H : _ || _ = true |- _ => apply orb_true_iff in H
  | H : _ || _ = false |- _ => apply orb_false_iff in H as [? ?]
  end.

(** A thread an action has started is the one thread it starts. *)
Ltac in_spawned :=
  repeat match goal with
  | H : _ ∈ [] |- _ => by inversion H
  | H : _ ∈ [_] |- _ => apply list_elem_of_singleton in H; subst
  end.

(** ** Sums over lists *)

Section sums.
Context {A : Type} (f : A → Z).

Lemma sumZ_app (l k : list A) : sumZ f (l ++ k) = sumZ f l + sumZ f k.
Proof. induction l as [|x l IH]; simpl; [done | rewrite IH; lia]. Qed.

Lemma sumZ_insert (l : list A) (i : nat) (x y : A) :
  l !! i = Some x → sumZ f (<[i:=y]> l) = sumZ f l - f x + f y.
Proof.
  revert i. induction l as [|z l IH]; intros [|i] Hi; simplify_eq/=; [lia|].
  rewrite (IH i Hi). lia.
Qed.

Lemma sumZ_nonneg (l : list A) : (∀ x, x ∈ l → 0 ≤ f x) → 0 ≤ sumZ f l.
Proof.
  induction l as [|z l IH]; intros H; simpl; [lia|].
  assert (0 ≤ f z) by (apply H; left).
  assert (0 ≤ sumZ f l) by (apply IH; intros; apply H; by right). lia.
Qed.

Lemma sumZ_lookup_le (l : list A) (i : nat) (x : A) :
  (∀ x, x ∈ l → 0 ≤ f x) → l !! i = Some x → f x ≤ sumZ f l.
Proof.
  revert i. induction l as [|z l IH]; intros i Hpos Hi; [done|].
  assert (Hl : ∀ x, x ∈ l → 0 ≤ f x) by (intros; apply Hpos; by right).
  assert (0 ≤ f z) by (apply Hpos; left).
  pose proof (sumZ_nonneg l Hl).
  destruct i as [|i]; simplify_eq/=; [lia|].
  pose proof (IH i Hl Hi). lia.
Qed.

Lemma sumZ_lookup2_le (l : list A) (i j : nat) (x y : A) :
  (∀ x, x ∈ l → 0 ≤ f x) → i ≠ j → l !! i = Some x → l !! j = Some y →
  f x + f y ≤ sumZ f l.
Proof.
  revert i j. induction l as [|z l IH]; intros i j Hpos Hij Hi Hj; [done|].
  assert (∀ x, x ∈ l → 0 ≤ f x) by (intros; apply Hpos; by right).
  assert (0 ≤ f z) by (apply Hpos; left).
  destruct i as [|i], j as [|j]; simplify_eq/=.
  - assert (f y ≤ sumZ f l) by eauto using sumZ_lookup_le. lia.
  - assert (f x ≤ sumZ f l) by eauto using sumZ_lookup_le. lia.
  - assert (i ≠ j) by congruence.
    assert (f x + f y ≤ sumZ f l) by eauto. lia.
Qed.

Lemma sumZ_zero (l : list A) (x : A) :
  (∀ x, x ∈ l → 0 ≤ f x) → sumZ f l = 0 → x ∈ l → f x = 0.
Proof.
  intros Hpos Hs [i Hi]%list_elem_of_lookup.
  pose proof (sumZ_lookup_le l i x Hpos Hi).
  assert (0 ≤ f x) by (apply Hpos, list_elem_of_lookup; eauto). lia.
Qed.

End sums.

(** ** One action of the program *)

Lemma elem_of_insert_app {A} (l sp : list A) (i : nat) (y x : A) :
  x ∈ <[i:=y]> l ++ sp → x = y ∨ x ∈ l ∨ x ∈ sp.
Proof.
  rewrite elem_of_app. intros [H|H]; [|auto].
  apply list_elem_of_lookup in H as [j Hj].
  destruct (decide (i = j)) as [->|Hne].
  - destruct (decide (j < length l)%nat).
    + rewrite list_lookup_insert_eq in Hj by done. left. congruence.
    + rewrite list_insert_ge in Hj by lia. right; left. apply list_elem_of_lookup; eauto.
  - rewrite list_lookup_insert_ne in Hj by done. right; left. apply list_elem_of_lookup; eauto.
Qed.

Lemma step_inv s a s' :
  step s a = Some s' →
  ∃ t t' m' sp,
    panicked (mem s) = None ∧ threads s !! a.2 = Some t ∧
    thread_step a.1 t (mem s) = Some (t', m', sp) ∧
    s' = MkState m' (<[a.2:=t']> (threads s) ++ sp).
Proof.
  unfold step. intros H. destruct (panicked (mem s)); [done|].
  destruct (threads s !! a.2) as [t|] eqn:Ht; [|done]. simpl in H.
  destruct (thread_step a.1 t (mem s)) as [[[t' m'] sp]|] eqn:Hs; [|done].
  simplify_eq/=. eauto 10.
Qed.

Lemma step_other s a s' tid :
  step s a = Some s' → tid ≠ a.2 → (tid < length (threads s))%nat →
  threads s' !! tid = threads s !! tid.
Proof.
  intros (t & t' & m' & sp & _ & _ & _ & ->)%step_inv Hne Hlt. simpl.
  rewrite lookup_app_l by (by rewrite length_insert).
  by rewrite list_lookup_insert_ne.
Qed.

Lemma step_lookup s (a : Action) s' t t' m' sp tid x :
  threads s !! a.2 = Some t →
  s' = MkState m' (<[a.2:=t']> (threads s) ++ sp) →
  threads s' !! tid = Some x →
  (tid = a.2 ∧ x = t') ∨ (tid ≠ a.2 ∧ threads s !! tid = Some x) ∨ x ∈ sp.
Proof.
  intros Ht -> Hx. simpl in Hx.
  apply lookup_app_Some in Hx as [Hx|[_ Hx]].
  - apply list_lookup_insert_Some in Hx as [(-> & -> & _)|[? ?]]; auto.
  - right; right. apply list_elem_of_lookup; eauto.
Qed.

Lemma step_lookup_self s (a : Action) s' t t' m' sp :
  threads s !! a.2 = Some t →
  s' = MkState m' (<[a.2:=t']> (threads s) ++ sp) →
  threads s' !! a.2 = Some t'.
Proof.
  intros Ht ->. simpl. apply lookup_lt_Some in Ht as Hlt.
  rewrite lookup_app_l by (by rewrite length_insert).
  by apply list_lookup_insert_eq.
Qed.

Lemma step_unfold s (a : Action) t t' m' sp :
  panicked (mem s) = None → threads s !! a.2 = Some t →
  thread_step a.1 t (mem s) = Some (t', m', sp) →
  step s a = Some (MkState m' (<[a.2:=t']> (threads s) ++ sp)).
Proof. intros Hp Ht Hs. unfold step. rewrite Hp, Ht. simpl. by rewrite Hs. Qed.

Lemma step_blocked s (a : Action) t :
  threads s !! a.2 = Some t → thread_step a.1 t (mem s) = None → step s a = None.
Proof. intros Ht Hs. unfold step. rewrite Ht. simpl. rewrite Hs. by case_match. Qed.

(** ** The closed flag *)

Lemma thread_step_closed k t m t' m' sp :
  thread_step k t m = Some (t', m', sp) →
  closed (pool m') = closed (pool m) ∨ closed (pool m') = 1.
Proof. intros H. thread_cases H; simpl; auto. Qed.

Lemma step_closed s a s' :
  step s a = Some s' →
  closed (pool (mem s')) = closed (pool (mem s)) ∨ closed (pool (mem s')) = 1.
Proof.
  intros (t & t' & m' & sp & _ & _ & Hs & ->)%step_inv.
  eauto using thread_step_closed.
Qed.

Lemma run_closed s acts s' :
  run s acts = Some s' →
  closed (pool (mem s')) = closed (pool (mem s)) ∨ closed (pool (mem s')) = 1.
Proof.
  revert s. induction acts as [|a acts IH]; intros s Hrun; simplify_eq/=; [auto|].
  destruct (step s a) as [s1|] eqn:Hs; simplify_eq/=.
  destruct (IH _ Hrun) as [->|?]; eauto using step_closed.
Qed.

(** ** The wait group *)

Lemma thread_step_owes k t m t' m' sp :
  thread_step k t m = Some (t', m', sp) →
  0 ≤ maxWorkersCount (pool m) → 0 ≤ owes (maxWorkersCount (pool m)) t →
  maxWorkersCount (pool m') = maxWorkersCount (pool m) ∧
  0 ≤ owes (maxWorkersCount (pool m)) t' ∧
  (∀ x, x ∈ sp → 0 ≤ owes (maxWorkersCount (pool m)) x) ∧
  wg (pool m') = wg (pool m) - owes (maxWorkersCount (pool m)) t
                 + owes (maxWorkersCount (pool m)) t'
                 + sumZ (owes (maxWorkersCount (pool m))) sp ∧
  terminated t' + sumZ terminated sp - terminated t + wg (pool m') - wg (pool m)
  = (if start (pool m') then maxWorkersCount (pool m) else 0)
    - (if start (pool m) then maxWorkersCount (pool m) else 0).
Proof.
  intros H Hmax Ht. thread_cases H.
  all: bool_to_Z; simpl in *.
  all: repeat split; try (intros ? ?; in_spawned; simpl); try lia.
  all: repeat case_match; simplify_eq/=; try lia.
Qed.

Lemma joined_inv_init max scripts : joined_inv (init max scripts).
Proof.
  unfold joined_inv, init; simpl.
  assert (∀ mx (l : list (list Call)),
    sumZ (owes mx) ((λ sc, Client None sc []) <$> l) = 0 ∧
    sumZ terminated ((λ sc, Client None sc []) <$> l) = 0) as Hz.
  { intros mx l. induction l as [|x l IH]; [done|]. rewrite fmap_cons. cbn [sumZ foldr owes terminated]. unfold sumZ in IH. lia. }
  destruct (Hz (if max <? 1 then 1 else max) scripts) as [-> ->].
  repeat split; try (case_match; bool_to_Z; lia).
  intros t [sc [-> _]]%list_elem_of_fmap. done.
Qed.

Lemma joined_inv_step s a s' : step s a = Some s' → joined_inv s → joined_inv s'.
Proof.
  intros (t & t' & m' & sp & _ & Ht & Hs & ->)%step_inv (Hmax & Hpos & Hwg & Hterm).
  assert (t ∈ threads s) as Hin by (apply list_elem_of_lookup; eauto).
  destruct (thread_step_owes _ _ _ _ _ _ Hs) as (Hmx & Ht' & Hsp & Hwg' & Hterm');
    [lia | by apply Hpos |].
  unfold joined_inv; simpl. rewrite Hmx.
  rewrite !sumZ_app, !(sumZ_insert _ _ _ t) by done.
  repeat split; try lia.
  intros x [->|[?|?]]%elem_of_insert_app; auto.
Qed.

Lemma joined_all_terminated s :
  joined_inv s → wg (pool (mem s)) = 0 →
  (∀ tid pc, threads s !! tid = Some (Worker pc) → pc = WExit) ∧
  (∀ tid i, threads s !! tid = Some (Looping i) → i = maxWorkersCount (pool (mem s))) ∧
  (start (pool (mem s)) = true →
   sumZ terminated (threads s) = maxWorkersCount (pool (mem s))).
Proof.
  intros (Hmax & Hpos & Hwg & Hterm) Hz. rewrite Hz in Hwg, Hterm.
  assert (∀ tid t, threads s !! tid = Some t →
            owes (maxWorkersCount (pool (mem s))) t = 0) as Hzero.
  { intros tid t Ht. apply (sumZ_zero _ (threads s)); auto.
    apply list_elem_of_lookup; eauto. }
  repeat split.
  - intros tid pc Ht. apply Hzero in Ht. by destruct pc.
  - intros tid i Ht. apply Hzero in Ht. simpl in Ht. lia.
  - intros Hst. rewrite Hst in Hterm. lia.
Qed.

(** ** The closures of [DoWait] *)

Lemma closes_nonneg d wt : 0 ≤ closes d wt ≤ 1.
Proof. destruct wt; simpl; [lia|]. case_decide; lia. Qed.

Lemma holds_nonneg d t : 0 ≤ holds d t ≤ 1.
Proof.
  unfold holds. repeat case_match; try lia; apply closes_nonneg.
Qed.

(** Bring in the bounds of every [closes d wt] of the goal. *)
Ltac closes_bounds :=
  repeat match goal with
  | |- context [closes ?d ?wt] =>
      lazymatch goal with
      | _ : 0 ≤ closes d wt ≤ 1 |- _ => fail
      | _ => pose proof (closes_nonneg d wt)
      end
  end.

Lemma thread_step_tags k t m t' m' sp :
  thread_step k t m = Some (t', m', sp) →
  ∃ f0, ∀ p, p ∈ tags t' ++ (sp ≫= tags) ++ mtags m' →
    p ∈ tags t ++ mtags m ∨
    (p = (f0, length (dones m)) ∧ length (dones m') = S (length (dones m))).
Proof.
  intros H. thread_cases H.
  all: unfold mtags; simpl; use_buf; rewrite ?bind_app, ?bind_cons; simpl.
  all: try (exists NilFunc; intros p;
            repeat first [rewrite elem_of_app | rewrite elem_of_cons | rewrite elem_of_nil];
            by intuition eauto).
  all: eexists; intros p Hp; rewrite length_app; simpl.
  all: apply elem_of_cons in Hp as [->|Hp]; [right; split; [reflexivity|lia] | by left].
Qed.

Lemma thread_step_ran k t m t' m' sp :
  thread_step k t m = Some (t', m', sp) →
  (∃ l, ran m' = ran m ++ l) ∧
  (∀ f d e fin, t' = Worker (WDone f d e fin) → t = t' ∨ Wrapped f d ∈ ran m') ∧
  (∀ x f d e fin, x ∈ sp → x ≠ Worker (WDone f d e fin)).
Proof.
  intros H. thread_cases H.
  all: simpl; split; [first [by exists [] | by eexists; rewrite app_nil_r | by eexists] |].
  all: split; [intros ???? [=]; subst; auto; right; apply elem_of_app; right; by left | intros ????? ?; in_spawned; done].
Qed.

Lemma thread_step_holds k t m t' m' sp d :
  thread_step k t m = Some (t', m', sp) →
  (awaits d t = true → awaits d t' = true ∨ dones m !! d = Some true) ∧
  ((dones m' = dones m ∧ local_holders d t' sp m' ≤ local_holders d t [] m) ∨
   (dones m' = dones m ++ [false] ∧ awaits (length (dones m)) t' = true ∧
    local_holders d t' sp m'
    = local_holders d t [] m + (if decide (d = length (dones m)) then 1 else 0)) ∨
   (∃ f d0 e fin, t = Worker (WDone f d0 e fin) ∧ dones m !! d0 = Some false ∧
    dones m' = <[d0:=true]> (dones m) ∧
    local_holders d t' sp m'
    = local_holders d t [] m - (if decide (d = d0) then 1 else 0))).
Proof.
  intros H. thread_cases H.
  all: split; [by simpl; auto |].
  all: unfold local_holders; simpl; use_buf; rewrite ?sumZ_app; simpl.
  all: closes_bounds.
  all: try (left; split; [done|]; repeat case_decide; lia).
  all: try (right; left; split; [done|]; split; [first [done | by apply bool_decide_eq_true]|]; repeat case_decide; subst; lia).
  all: try (right; right; do 4 eexists; split; [done|]; split; [done|]; split; [done|]; repeat case_decide; subst; lia).
Qed.

Lemma tagged_thread s tid t p : threads s !! tid = Some t → p ∈ tags t → tagged s p.
Proof.
  intros Ht Hp. unfold tagged. apply elem_of_app; left.
  apply list_elem_of_bind. exists t. split; [done|]. apply list_elem_of_lookup; eauto.
Qed.

Lemma tagged_mem s p : p ∈ mtags (mem s) → tagged s p.
Proof. intros. unfold tagged. apply elem_of_app; by right. Qed.

Lemma step_tagged s a s' :
  step s a = Some s' →
  ∃ f0, ∀ p, tagged s' p →
    tagged s p ∨
    (p = (f0, length (dones (mem s))) ∧
     length (dones (mem s')) = S (length (dones (mem s)))).
Proof.
  intros (t & t' & m' & sp & _ & Ht & Hs & ->)%step_inv.
  destruct (thread_step_tags _ _ _ _ _ _ Hs) as [f0 Hloc].
  exists f0. intros p Hp. unfold tagged in Hp; simpl in Hp.
  assert (p ∈ tags t' ++ (sp ≫= tags) ++ mtags m' ∨ tagged s p) as [Hnew|?]; [| |by left].
  { apply elem_of_app in Hp as [Hp|Hp].
    - apply list_elem_of_bind in Hp as (x & Hpx & Hx).
      apply elem_of_insert_app in Hx as [->|[Hx|Hx]].
      + left. apply elem_of_app; by left.
      + right. apply list_elem_of_lookup in Hx as [i Hi]. eauto using tagged_thread.
      + left. apply elem_of_app; right. apply elem_of_app; left.
        apply list_elem_of_bind; eauto.
    - left. apply elem_of_app; right. apply elem_of_app; by right. }
  destruct (Hloc p Hnew) as [Hold|?]; [|by right].
  left. apply elem_of_app in Hold as [?|?]; eauto using tagged_thread, tagged_mem.
Qed.

Lemma holders_nonneg d s : 0 ≤ holders d s.
Proof.
  unfold holders.
  assert (0 ≤ sumZ (holds d) (threads s)).
  { apply sumZ_nonneg. intros. apply holds_nonneg. }
  assert (0 ≤ sumZ (closes d) (buf (task (pool (mem s))))).
  { apply sumZ_nonneg. intros. apply closes_nonneg. }
  lia.
Qed.

Lemma step_holders s a s' d :
  step s a = Some s' →
  (dones (mem s') = dones (mem s) ∧ holders d s' ≤ holders d s) ∨
  (dones (mem s') = dones (mem s) ++ [false] ∧
   (∃ t', threads s' !! a.2 = Some t' ∧ awaits (length (dones (mem s))) t' = true) ∧
   holders d s' = holders d s + (if decide (d = length (dones (mem s))) then 1 else 0)) ∨
  (∃ f d0 e fin,
     threads s !! a.2 = Some (Worker (WDone f d0 e fin)) ∧
     dones (mem s) !! d0 = Some false ∧
     dones (mem s') = <[d0:=true]> (dones (mem s)) ∧
     holders d s' = holders d s - (if decide (d = d0) then 1 else 0)).
Proof.
  intros (t & t' & m' & sp & _ & Ht & Hs & ->)%step_inv.
  destruct (thread_step_holds _ _ _ _ _ _ d Hs) as [_ Hloc].
  unfold holders, local_holders in *; simpl in *.
  rewrite sumZ_app, (sumZ_insert _ _ _ t) by done.
  destruct Hloc as [[? ?]|[(? & ? & ?)|(f & d0 & e & fin & -> & ? & ? & ?)]].
  - left. split; [done|lia].
  - right; left. split; [done|]. split; [|lia].
    exists t'. split; [|done]. exact (step_lookup_self s a _ t t' m' sp Ht eq_refl).
  - right; right. exists f, d0, e, fin. repeat split; try done. lia.
Qed.

Lemma step_awaits s a s' tid t d :
  step s a = Some s' → threads s !! tid = Some t → awaits d t = true →
  (∃ t', threads s' !! tid = Some t' ∧ awaits d t' = true) ∨
  dones (mem s) !! d = Some true.
Proof.
  intros Hstep Htid Haw.
  destruct (decide (tid = a.2)) as [->|Hne].
  - apply step_inv in Hstep as (t0 & t' & m' & sp & _ & Ht & Hs & ->).
    simplify_eq.
    destruct (thread_step_holds _ _ _ _ _ _ d Hs) as [[?|?] _]; [done| |by right].
    left. exists t'. split; [|done]. by eapply (step_lookup_self s a).
  - left. exists t. split; [|done].
    rewrite (step_other s a s') by eauto using lookup_lt_Some. done.
Qed.

Lemma step_ran s a s' : step s a = Some s' → ∃ l, ran (mem s') = ran (mem s) ++ l.
Proof.
  intros (t & t' & m' & sp & _ & Ht & Hs & ->)%step_inv.
  by destruct (thread_step_ran _ _ _ _ _ _ Hs) as [? _].
Qed.

Lemma hold_inv_step s a s' : step s a = Some s' → hold_inv s → hold_inv s'.
Proof.
  intros Hstep (Hle & Hfresh & Hclosed & Hown).
  repeat split.
  - intros d. specialize (Hle d). specialize (Hfresh d).
    destruct (step_holders s a s' d Hstep)
      as [[? ?]|[(? & ? & ?)|(f & d0 & e & fin & ? & ? & ? & ?)]];
      repeat case_decide; subst; lia.
  - intros d Hd. pose proof (holders_nonneg d s'). specialize (Hfresh d).
    destruct (step_holders s a s' d Hstep)
      as [[Hd' ?]|[(Hd' & ? & ?)|(f & d0 & e & fin & ? & ? & Hd' & ?)]];
      rewrite Hd' in Hd; rewrite ?length_app, ?length_insert in Hd; simpl in Hd;
      repeat case_decide; subst; lia.
  - intros d Hd. pose proof (holders_nonneg d s').
    specialize (Hle d). specialize (Hclosed d).
    destruct (step_holders s a s' d Hstep)
      as [[Hd' ?]|[(Hd' & ? & ?)|(f & d0 & e & fin & ? & ? & Hd' & ?)]];
      rewrite Hd' in Hd.
    + specialize (Hclosed Hd). lia.
    + apply lookup_app_Some in Hd as [Hd|[? Hd]].
      * apply lookup_lt_Some in Hd as ?. specialize (Hclosed Hd). case_decide; lia.
      * by destruct (d - length (dones (mem s)))%nat.
    + case_decide; [lia|]. rewrite list_lookup_insert_ne in Hd by done.
      specialize (Hclosed Hd). lia.
  - intros d Hd.
    assert (dones (mem s) !! d = Some false ∨
            ∃ t', threads s' !! a.2 = Some t' ∧ awaits d t' = true) as [Hold|?].
    { destruct (step_holders s a s' d Hstep)
        as [[Hd' ?]|[(Hd' & ? & ?)|(f & d0 & e & fin & ? & ? & Hd' & ?)]];
        rewrite Hd' in Hd.
      - by left.
      - apply lookup_app_Some in Hd as [Hd|[? Hd]]; [by left|].
        apply lookup_lt_Some in Hd as Hlt. simpl in Hlt.
        assert (d = length (dones (mem s))) as -> by lia. by right.
      - left. destruct (decide (d0 = d)) as [->|?].
        + apply lookup_lt_Some in Hd as Hlt. rewrite length_insert in Hlt.
          rewrite list_lookup_insert_eq in Hd by done. done.
        + by rewrite list_lookup_insert_ne in Hd. }
    + destruct (Hown d Hold) as (tid & t & Ht & Haw).
      destruct (step_awaits s a s' tid t d Hstep Ht Haw) as [(t' & ? & ?)|?]; [eauto|].
      congruence.
    + eauto.
Qed.

Lemma wrap_inv_step s a s' : step s a = Some s' → wrap_inv s → wrap_inv s'.
Proof.
  intros Hstep (Hlt & Hcoh & Hdone & Hwd).
  destruct (step_tagged s a s' Hstep) as [f0 Htag].
  destruct (step_ran s a s' Hstep) as [l Hran].
  assert (length (dones (mem s)) ≤ length (dones (mem s')))%nat as Hlen.
  { destruct (step_holders s a s' 0%nat Hstep)
      as [[Hd' ?]|[(Hd' & ? & ?)|(f & d0 & e & fin & ? & ? & Hd' & ?)]];
      rewrite Hd', ?length_app, ?length_insert; simpl; lia. }
  repeat split.
  - intros p [Hp|[-> ?]]%Htag; [apply Hlt in Hp; lia | simpl; lia].
  - intros f f' d [Hp|[? ?]]%Htag [Hp'|[? ?]]%Htag; simplify_eq; eauto.
    + apply Hlt in Hp. simpl in Hp. lia.
    + apply Hlt in Hp'. simpl in Hp'. lia.
  - intros d Hd. rewrite Hran. setoid_rewrite elem_of_app.
    destruct (step_holders s a s' d Hstep)
      as [[Hd' ?]|[(Hd' & ? & ?)|(f & d0 & e & fin & Hth & ? & Hd' & ?)]];
      rewrite Hd' in Hd.
    + destruct (Hdone d Hd); eauto.
    + apply lookup_app_Some in Hd as [Hd|[? Hd]]; [destruct (Hdone d Hd); eauto|].
      by destruct (d - length (dones (mem s)))%nat.
    + destruct (decide (d0 = d)) as [->|?]; [eauto|].
      rewrite list_lookup_insert_ne in Hd by done. destruct (Hdone d Hd); eauto.
  - intros tid f d e fin Hth. rewrite Hran, elem_of_app.
    pose proof Hstep as (t & t' & m' & sp & _ & Ht & Hs & Heq)%step_inv.
    destruct (thread_step_ran _ _ _ _ _ _ Hs) as (_ & Hself & Hsp).
    destruct (step_lookup s a s' t t' m' sp tid _ Ht Heq Hth) as [[-> <-]|[[? ?]|?]].
    + destruct (Hself f d e fin eq_refl) as [->|Hin]; [eauto|].
      subst s'. simpl in *. rewrite Hran in Hin. by apply elem_of_app in Hin.
    + eauto.
    + by edestruct Hsp.
Qed.

Lemma inv_init max scripts : wrap_inv (init max scripts) ∧ hold_inv (init max scripts).
Proof.
  assert (∀ l : list (list Call), ((λ sc, Client None sc []) <$> l) ≫= tags = []) as Htags.
  { induction l as [|x l IH]; [done|]. by rewrite fmap_cons, bind_cons, IH. }
  assert (∀ d (l : list (list Call)),
    sumZ (holds d) ((λ sc, Client None sc []) <$> l) = 0) as Hholds.
  { intros d l. induction l as [|x l IH]; [done|]. rewrite fmap_cons. simpl. apply IH. }
  split.
  - repeat split; unfold tagged, mtags, init; simpl; try rewrite Htags; simpl.
    + by intros p ?%elem_of_nil.
    + by intros f f' d ?%elem_of_nil.
    + by intros d.
    + intros tid f d e fin (sc & ? & _)%list_lookup_fmap_Some. done.
  - repeat split; unfold holders, init; simpl; try rewrite Hholds; try done.
  all: intros d; rewrite Hholds; intros; lia.
Qed.

Lemma inv_run s acts s' : run s acts = Some s' → inv s → inv s'.
Proof.
  revert s. induction acts as [|a acts IH]; intros s Hrun Hinv; simplify_eq/=; [done|].
  destruct (step s a) as [s1|] eqn:Hs; simplify_eq/=.
  apply (IH s1); [done|]. destruct Hinv as (? & ? & ?).
  split; [|split]; eauto using joined_inv_step, wrap_inv_step, hold_inv_step.
Qed.

Lemma reachable_inv s : reachable s → inv s.
Proof.
  intros (max & scripts & acts & Hrun). apply (inv_run _ _ _ Hrun).
  destruct (inv_init max scripts). split; [|split]; auto using joined_inv_init.
Qed.

Lemma abandoned_step d s a s' : step s a = Some s' → abandoned d s → abandoned d s'.
Proof.
  intros Hstep [Hd Hh]. pose proof (holders_nonneg d s').
  apply lookup_lt_Some in Hd as Hlt.
  destruct (step_holders s a s' d Hstep)
    as [[Hd' ?]|[(Hd' & ? & ?)|(f & d0 & e & fin & ? & ? & Hd' & ?)]];
    split; rewrite ?Hd'; repeat case_decide; subst; try lia; try done.
  - by rewrite lookup_app_l.
  - by rewrite list_lookup_insert_ne.
Qed.

Lemma abandoned_caller_stays d s a s' tid t script rets :
  step s a = Some s' → abandoned d s →
  threads s !! tid = Some (Client (Some (InDoWait (DwRecv t d))) script rets) →
  threads s' !! tid = Some (Client (Some (InDoWait (DwRecv t d))) script rets).
Proof.
  intros Hstep [Hd _] Ht.
  destruct (decide (tid = a.2)) as [->|Hne].
  - apply step_inv in Hstep as (t0 & t' & m' & sp & _ & Ht0 & Hs & ->).
    rewrite Ht in Ht0. injection Ht0 as <-.
    destruct a as [[] i]; simpl in Hs; [|done..]. by rewrite Hd in Hs.
  - rewrite (step_other s a s') by eauto using lookup_lt_Some. done.
Qed.

Lemma abandoned_forever d s acts s' tid t script rets :
  run s acts = Some s' → abandoned d s →
  threads s !! tid = Some (Client (Some (InDoWait (DwRecv t d))) script rets) →
  abandoned d s' ∧
  threads s' !! tid = Some (Client (Some (InDoWait (DwRecv t d))) script rets).
Proof.
  revert s. induction acts as [|a acts IH]; intros s Hrun Hab Ht; simplify_eq/=; [done|].
  destruct (step s a) as [s1|] eqn:Hs; simplify_eq/=.
  eauto using abandoned_step, abandoned_caller_stays.
Qed.

(** ** The error slot *)

Lemma thread_step_errChan k t m t' m' sp :
  thread_step k t m = Some (t', m', sp) →
  chan_closed (errChan (pool m')) = chan_closed (errChan (pool m)) ∧
  cap (errChan (pool m')) = cap (errChan (pool m)) ∧
  (Z.of_nat (length (buf (errChan (pool m)))) ≤ cap (errChan (pool m)) →
   Z.of_nat (length (buf (errChan (pool m')))) ≤ cap (errChan (pool m))).
Proof.
  intros H. thread_cases H; bool_to_Z; simpl; repeat split; try done.
  all: use_buf; rewrite ?length_app; simpl; intros; use_buf; simpl in *; try lia.
  all: repeat match goal with
       | H : buf _ = _ :: _ |- _ => rewrite H in *; simpl in *
       end; lia.
Qed.

(** Nothing closes the error slot, and it never holds two values at once. *)
Lemma errChan_open_and_bounded s :
  reachable s →
  chan_closed (errChan (pool (mem s))) = false ∧
  cap (errChan (pool (mem s))) = 1 ∧
  (length (buf (errChan (pool (mem s)))) ≤ 1)%nat.
Proof.
  intros (max & scripts & acts & Hrun).
  assert (chan_closed (errChan (pool (mem (init max scripts)))) = false ∧
          cap (errChan (pool (mem (init max scripts)))) = 1 ∧
          Z.of_nat (length (buf (errChan (pool (mem (init max scripts)))))) ≤ 1) as H0
    by (simpl; repeat split; lia).
  revert Hrun H0. generalize (init max scripts). clear max scripts.
  induction acts as [|a acts IH]; intros s0 Hrun H0; simplify_eq/=.
  { destruct H0 as (? & ? & ?). repeat split; auto; lia. }
  destruct (step s0 a) as [s1|] eqn:Hs; simplify_eq/=.
  apply (IH s1 Hrun). destruct H0 as (H1 & H2 & H3).
  apply step_inv in Hs as (t & t' & m' & sp & _ & _ & Hs & ->).
  destruct (thread_step_errChan _ _ _ _ _ _ Hs) as (Hc & Hcap & Hlen). simpl.
  rewrite Hc, Hcap. repeat split; auto. rewrite H2 in Hlen. apply Hlen. lia.
Qed.

(** ** What can still run *)

Lemma thread_step_pending k t m t' m' sp :
  thread_step k t m = Some (t', m', sp) →
  (∀ f, f ∈ thread_funcs t' ++ (sp ≫= thread_funcs) ++ (func_of <$> buf (task (pool m'))) →
        f ∈ thread_funcs t ++ (func_of <$> buf (task (pool m)))) ∧
  ∃ l, ran m' = ran m ++ l ∧ ∀ wt, wt ∈ l → func_of wt ∈ thread_funcs t.
Proof.
  intros H. thread_cases H.
  all: simpl; use_buf; rewrite ?fmap_app, ?fmap_cons; simpl.
  all: split;
    [ intros f;
      repeat first [rewrite elem_of_app | rewrite elem_of_cons | rewrite elem_of_nil];
      by intuition eauto
    | first [ by exists []; rewrite app_nil_r; split; [done|]; intros ? ?%elem_of_nil
            | eexists; split; [reflexivity|];
              intros ? ->%list_elem_of_singleton; simpl; by left ] ].
Qed.

Lemma step_pending s a s' :
  step s a = Some s' →
  (∀ f, f ∈ pending s' → f ∈ pending s) ∧
  ∃ l, ran (mem s') = ran (mem s) ++ l ∧ ∀ wt, wt ∈ l → func_of wt ∈ pending s.
Proof.
  intros (t & t' & m' & sp & _ & Ht & Hs & ->)%step_inv.
  destruct (thread_step_pending _ _ _ _ _ _ Hs) as (Hloc & l & Hran & Hl).
  assert (∀ f, f ∈ thread_funcs t → f ∈ pending s) as Hth.
  { intros f Hf. apply elem_of_app; left. apply list_elem_of_bind.
    exists t. split; [done|]. apply list_elem_of_lookup; eauto. }
  split.
  - intros f Hf. unfold pending in Hf; simpl in Hf.
    assert (f ∈ thread_funcs t' ++ (sp ≫= thread_funcs)
                ++ (func_of <$> buf (task (pool m'))) ∨ f ∈ pending s) as [Hnew|?];
      [| |done].
    { apply elem_of_app in Hf as [Hf|Hf].
      - apply list_elem_of_bind in Hf as (x & Hfx & Hx).
        apply elem_of_insert_app in Hx as [->|[Hx|Hx]].
        + left. apply elem_of_app; by left.
        + right. apply elem_of_app; left. apply list_elem_of_bind; eauto.
        + left. apply elem_of_app; right. apply elem_of_app; left.
          apply list_elem_of_bind; eauto.
      - left. apply elem_of_app; right. apply elem_of_app; by right. }
    apply Hloc in Hnew. apply elem_of_app in Hnew as [?|?]; [by apply Hth|].
    apply elem_of_app; by right.
  - exists l. split; [done|]. intros wt Hwt. apply Hth. by apply Hl.
Qed.

Lemma run_pending s acts s' :
  run s acts = Some s' →
  (∀ f, f ∈ pending s' → f ∈ pending s) ∧
  ∃ l, ran (mem s') = ran (mem s) ++ l ∧ ∀ wt, wt ∈ l → func_of wt ∈ pending s.
Proof.
  revert s. induction acts as [|a acts IH]; intros s Hrun; simplify_eq/=.
  { split; [done|]. exists []. rewrite app_nil_r. split; [done|].
    by intros ? ?%elem_of_nil. }
  destruct (step s a) as [s1|] eqn:Hs; simplify_eq/=.
  destruct (step_pending _ _ _ Hs) as (Hp1 & l1 & Hr1 & Hl1).
  destruct (IH _ Hrun) as (Hp2 & l2 & Hr2 & Hl2).
  split; [by auto|]. exists (l1 ++ l2). split; [by rewrite Hr2, Hr1, app_assoc|].
  intros wt [?|?]%elem_of_app; auto.
Qed.

(** ** Single actions *)

Lemma errChan_write_never_blocks s tid e :
  panicked (mem s) = None →
  chan_closed (errChan (pool (mem s))) = false →
  threads s !! tid = Some (Worker (WSelect (Some e))) →
  step s (Run, tid)
  = Some (if Z.of_nat (length (buf (errChan (pool (mem s))))) <? cap (errChan (pool (mem s)))
          then MkState
                 (with_pool (set_errChan (MkChan (buf (errChan (pool (mem s))) ++ [e])
                                                 (cap (errChan (pool (mem s)))) false))
                            (mem s))
                 (<[tid:=Worker (WLog e)]> (threads s))
          else MkState (mem s) (<[tid:=Worker WRange]> (threads s))).
Proof.
  intros Hp Hc Ht. unfold step. rewrite Hp. simpl. rewrite Ht. simpl.
  unfold send. rewrite Hc.
  destruct (Z.of_nat (length (buf (errChan (pool (mem s)))))
            <? cap (errChan (pool (mem s)))); simpl; by rewrite app_nil_r.
Qed.


Lemma check_discards s tid wt :
  panicked (mem s) = None →
  threads s !! tid = Some (Worker (WCheck wt)) →
  is_nil wt = true ∨ closed (pool (mem s)) = 1 →
  step s (Run, tid) = Some (MkState (mem s) (<[tid:=Worker WRange]> (threads s))).
Proof.
  intros Hp Ht Hc. unfold step. rewrite Hp. simpl. rewrite Ht. simpl.
  destruct Hc as [-> | ->]; rewrite ?orb_true_r; simpl; by rewrite app_nil_r.
Qed.

(** Lines 84-97: a watchdog is started for a task exactly when the timeout
    is positive, and its deadline has not passed yet. *)
Lemma watchdog_started_iff_timeout s tid wt :
  panicked (mem s) = None →
  threads s !! tid = Some (Worker (WMake wt)) →
  step s (Run, tid)
  = Some (MkState (set_fins (fins (mem s) ++ [false]) (mem s))
            (<[tid:=Worker (WCall wt (length (fins (mem s))))]> (threads s)
             ++ (if 0 <? timeout (pool (mem s))
                 then [Watchdog (WdSelect false) (length (fins (mem s)))]
                 else []))).
Proof. intros Hp Ht. unfold step. rewrite Hp. simpl. by rewrite Ht. Qed.

Lemma worker_range_dequeues s tid wt q :
  panicked (mem s) = None →
  threads s !! tid = Some (Worker WRange) →
  buf (task (pool (mem s))) = wt :: q →
  step s (Run, tid)
  = Some (MkState
            (with_pool (set_task (MkChan q (cap (task (pool (mem s))))
                                         (chan_closed (task (pool (mem s)))))) (mem s))
            (<[tid:=Worker (WCheck wt)]> (threads s))).
Proof.
  intros Hp Ht Hb.
  unfold step. rewrite Hp. simpl. rewrite Ht. simpl.
  unfold recv. rewrite Hb. simpl. by rewrite app_nil_r.
Qed.

Lemma worker_range_ends s tid :
  panicked (mem s) = None →
  threads s !! tid = Some (Worker WRange) →
  buf (task (pool (mem s))) = [] →
  chan_closed (task (pool (mem s))) = true →
  step s (Run, tid) = Some (MkState (mem s) (<[tid:=Worker WDefer]> (threads s))).
Proof.
  intros Hp Ht Hb Hc.
  unfold step. rewrite Hp. simpl. rewrite Ht. simpl.
  unfold recv. rewrite Hb, Hc. simpl. by rewrite app_nil_r.
Qed.

Lemma watchdog_step_shape k pc fin m t' m' sp :
  chan_closed (errChan (pool m)) = false →
  thread_step k (Watchdog pc fin) m = Some (t', m', sp) →
  sp = [] ∧ panicked m' = panicked m ∧ ran m' = ran m ∧
  (m' = m ∨
   m' = with_pool (set_errChan (MkChan (buf (errChan (pool m)) ++ [DeadlineExceeded])
                                       (cap (errChan (pool m))) false)) m ∨
   m' = set_logged (logged m ++ [DeadlineExceeded]) m ∨
   m' = with_pool (set_closed 1) m) ∧
  (∀ e, pc = WdSelect e → k = Run →
     fins m !! fin = Some true ∧ m' = m ∧ t' = Exited).
Proof.
  intros Herr H. simpl in H. unfold watchdog, goto, send in H. rewrite Herr in H.
  destruct k, pc as [[]| | | |]; repeat (case_match; simplify_eq/=); 
    repeat split; auto; try congruence; intros; simplify_eq; auto.
Qed.

Lemma call_returns s tid wt fin id ret :
  panicked (mem s) = None →
  threads s !! tid = Some (Worker (WCall wt fin)) →
  func_of wt = Closure id ret →
  ∃ s', step s (Run, tid) = Some s' ∧ ran (mem s') = ran (mem s) ++ [wt] ∧
    threads s' !! tid
    = Some (Worker (match wt with
                    | Given _ => WClose ret fin
                    | Wrapped t d => WDone t d ret fin
                    end)).
Proof.
  intros Hp Ht Hf. unfold step. rewrite Hp. simpl. rewrite Ht. simpl.
  destruct wt as [fn|t d]; simpl in Hf; subst; simpl.
  all: eexists; split; [reflexivity|]; simpl; split; [done|].
  all: rewrite app_nil_r; apply list_lookup_insert_eq; eauto using lookup_lt_Some.
Qed.

Lemma send_on_closed_task_channel s tid fr script rets :
  panicked (mem s) = None →
  threads s !! tid = Some (Client (Some fr) script rets) →
  (∃ fn, fr = InDo (DoSend fn)) ∨ (∃ t d, fr = InDoWait (DwSend t d)) →
  chan_closed (task (pool (mem s))) = true →
  step s (Run, tid)
  = Some (MkState (panic SendOnClosedChannel (mem s))
                  (<[tid:=Client (Some fr) script rets]> (threads s))).
Proof.
  intros Hp Ht Hfr Hc. unfold step. rewrite Hp. simpl. rewrite Ht. simpl.
  destruct Hfr as [[fn ->]|(t & d & ->)]; simpl; unfold send; rewrite Hc; simpl;
    by rewrite app_nil_r.
Qed.

(** ** Properties of the pool *)

(** C7.  For every integer [max], [New max] has [max] workers when
    [1 <= max] and one worker otherwise; its task queue is empty, open and
    of that capacity; its error slot is empty, open and of capacity 1; its
    closed flag is 0 (false) and its timeout is zero. *)
Theorem New_clamps_and_allocates (max : Z) :
  maxWorkersCount (New max) = (if decide (1 ≤ max) then max else 1) ∧
  task (New max) = MkChan [] (maxWorkersCount (New max)) false ∧
  errChan (New max) = MkChan [] 1 false ∧
  closed (New max) = 0 ∧
  timeout (New max) = 0.
Proof.
  unfold New, make; simpl. repeat split.
  case_decide; case_match; bool_to_Z; lia.
Qed.

(** C8.  The closed flag is monotonic.  It is 0 in the pool [New] returns;
    in every state [s] the program reaches it is 0 or 1; an action that
    changes it stores 1; and once it is 1 in [s] it is 1 in every state
    [s'] reached from [s]. *)
Theorem closed_flag_is_monotonic max scripts acts s acts' s' :
  run (init max scripts) acts = Some s →
  run s acts' = Some s' →
  closed (pool (mem (init max scripts))) = 0 ∧
  (closed (pool (mem s)) = 0 ∨ closed (pool (mem s)) = 1) ∧
  (∀ a s1, step s a = Some s1 →
     closed (pool (mem s1)) = closed (pool (mem s)) ∨ closed (pool (mem s1)) = 1) ∧
  (closed (pool (mem s)) = 1 → closed (pool (mem s')) = 1).
Proof.
  intros Hrun Hrun'. split; [done|]. split; [|split].
  - destruct (run_closed _ _ _ Hrun) as [->|?]; auto.
  - intros a s1. apply step_closed.
  - intros H1. destruct (run_closed _ _ _ Hrun') as [->|?]; auto.
Qed.

Lemma closed_flag_is_monotonic_witness : closed (pool (mem Wait_returned)) = 1.
Proof.
  refine (proj2 (proj2 (proj2
    (closed_flag_is_monotonic 2
       [[CallSetTimeout 5; CallDo (Closure 1 None); CallDo (Closure 2 None); CallWait]]
       (both_deadlines_pass ++ tasks_return) workers_joined
       Wait_returns Wait_returned _ _))) _).
  - vm_compute; reflexivity.
  - vm_compute; reflexivity.
  - reflexivity.
Defined.

(** C3.  A caller of [Do] or of [DoWait] that loads the closed flag (line 44,
    line 58) while it is 1 returns: the memory is what it was (nothing enters
    the queue, nothing has run, no error is recorded, no panic) and the
    caller is back between calls with nothing returned to it.  The task is
    never executed: unless the same function is also pending on another
    account (submitted by a call still to come, queued, or in a worker's
    hands), nothing that runs in any later state is that function. *)
Theorem submission_to_closed_pool_is_dropped s tid fr fn script rets :
  panicked (mem s) = None →
  threads s !! tid = Some (Client (Some fr) script rets) →
  fr = InDo (DoLoad fn) ∨ fr = InDoWait (DwLoad fn) →
  closed (pool (mem s)) = 1 →
  step s (Run, tid)
  = Some (MkState (mem s) (<[tid:=Client None script rets]> (threads s))) ∧
  ∀ acts s2,
    fn ∉ pending (MkState (mem s) (<[tid:=Client None script rets]> (threads s))) →
    run (MkState (mem s) (<[tid:=Client None script rets]> (threads s))) acts
    = Some s2 →
    ∃ l, ran (mem s2) = ran (mem s) ++ l ∧ ∀ wt, wt ∈ l → func_of wt ≠ fn.
Proof.
  intros Hp Ht Hfr Hc. split.
  - rewrite (step_unfold s (Run, tid) _ (Client None script rets) (mem s) [] Hp Ht).
    + by rewrite app_nil_r.
    + destruct Hfr as [-> | ->]; simpl; by rewrite Hc.
  - intros acts s2 Hfn Hrun.
    destruct (run_pending _ _ _ Hrun) as (_ & l & Hran & Hl).
    exists l. split; [done|]. intros wt Hwt Heq. apply Hfn. rewrite <- Heq. by apply Hl.
Qed.

Lemma submission_to_closed_pool_is_dropped_witness :
  step Do_at_check_when_closed (Run, 0%nat)
  = Some (MkState (mem Do_at_check_when_closed)
            (<[0%nat:=Client None [] []]> (threads Do_at_check_when_closed))) ∧
  ∀ acts s2,
    run (MkState (mem Do_at_check_when_closed)
           (<[0%nat:=Client None [] []]> (threads Do_at_check_when_closed))) acts
    = Some s2 →
    ∃ l, ran (mem s2) = ran (mem Do_at_check_when_closed) ++ l ∧
      ∀ wt, wt ∈ l → func_of wt ≠ Closure 2 None.
Proof.
  destruct (submission_to_closed_pool_is_dropped Do_at_check_when_closed 0%nat
              (InDo (DoLoad (Closure 2 None))) (Closure 2 None) [] [])
    as [Hstep Hnever].
  - reflexivity.
  - reflexivity.
  - left; reflexivity.
  - reflexivity.
  - split; [exact Hstep|]. intros acts s2. apply Hnever.
    vm_compute. intros Hin. inversion Hin.
Defined.

(** C4.  A worker that receives an item [wt] from the queue (line 77) takes
    it out of the queue without running it; and when it comes to line 78,
    whatever the other threads did in between, if [wt] is nil, or the closed
    flag was 1 when [wt] was received, or the closed flag is 1 now, it
    discards [wt]: the memory is what it was (the item is not put back in
    the queue, nothing has run, the error slot and the log are untouched, no
    panic) and the worker is back at the [range] over the queue, not at its
    exit. *)
Theorem worker_discards_nil_or_closed s tid wt q :
  panicked (mem s) = None →
  threads s !! tid = Some (Worker WRange) →
  buf (task (pool (mem s))) = wt :: q →
  ∃ s1,
    step s (Run, tid) = Some s1 ∧
    buf (task (pool (mem s1))) = q ∧
    ran (mem s1) = ran (mem s) ∧
    threads s1 !! tid = Some (Worker (WCheck wt)) ∧
    ∀ acts s2,
      run s1 acts = Some s2 →
      panicked (mem s2) = None →
      threads s2 !! tid = Some (Worker (WCheck wt)) →
      is_nil wt = true ∨ closed (pool (mem s)) = 1 ∨ closed (pool (mem s2)) = 1 →
      step s2 (Run, tid)
      = Some (MkState (mem s2) (<[tid:=Worker WRange]> (threads s2))).
Proof.
  intros Hp Ht Hb. eexists. split; [by apply worker_range_dequeues|].
  simpl. split; [done|]. split; [done|].
  split; [apply list_lookup_insert_eq; eauto using lookup_lt_Some|].
  intros acts s2 Hrun Hp2 Ht2 Hc. apply (check_discards s2 tid wt); [done..|].
  destruct Hc as [?|[Hc|?]]; auto. right.
  destruct (run_closed _ _ _ Hrun) as [Heq|?]; [|done]. by rewrite Heq.
Qed.

Lemma worker_discards_nil_or_closed_witness :
  step closure_received_when_closed (Run, 2%nat)
  = Some (MkState (mem closure_received_when_closed)
            (<[2%nat:=Worker WRange]> (threads closure_received_when_closed))).
Proof.
  destruct (worker_discards_nil_or_closed closure_queued_when_closed 2%nat
              (Wrapped (Closure 2 None) 0) [] eq_refl eq_refl eq_refl)
    as (s1 & Hstep & _ & _ & _ & Hcheck).
  apply (Hcheck [] closure_received_when_closed).
  - simpl. rewrite <- Hstep. vm_compute; reflexivity.
  - reflexivity.
  - reflexivity.
  - right; left; reflexivity.
Defined.

(** C5.  A watchdog never interrupts the task: whatever it does (the
    deadline of its context passing, either branch of its [select], any
    action after it), no other thread is touched and none is started; a
    worker that is running a task is still running it, and the task then
    returns its own value with its effect recorded.  On the memory the
    watchdog does nothing, or appends [DeadlineExceeded] to the error slot,
    or logs it, or stores 1 in the closed flag; the branch [case <-closed]
    leaves the memory as it was, and it is the only branch while the
    deadline has not passed.

    But the task having finished first does not stand the watchdog down.
    [cancel] is called in the [ct.Done()] branch only (line 93), so the
    deadline still passes after the task has returned, and a watchdog that
    comes to its [select] when both cases are ready takes either.  In
    [New(1); SetTimeout(5); Do(f); Wait()] with [f] returning nil there is a
    run in which [f] has returned and the worker has closed [closed] before
    the deadline has passed and before the watchdog has taken any action;
    the error slot is empty and the closed flag 0.  The deadline then
    passes, the watchdog takes [case <-ct.Done()], sends [DeadlineExceeded]
    to the error slot, logs it and stores 1 in the closed flag, and [Wait]
    returns [DeadlineExceeded] for a task that finished in time. *)
Theorem watchdog_can_fire_after_the_task_finished :
  (∀ s k tid pc fin s',
     chan_closed (errChan (pool (mem s))) = false →
     threads s !! tid = Some (Watchdog pc fin) →
     step s (k, tid) = Some s' →
     length (threads s') = length (threads s) ∧
     (∀ tid', tid' ≠ tid → threads s' !! tid' = threads s !! tid') ∧
     (∀ tid' wt fin' id ret,
        threads s !! tid' = Some (Worker (WCall wt fin')) →
        func_of wt = Closure id ret →
        threads s' !! tid' = Some (Worker (WCall wt fin')) ∧
        ∃ s'', step s' (Run, tid') = Some s'' ∧
          ran (mem s'') = ran (mem s) ++ [wt] ∧
          threads s'' !! tid'
          = Some (Worker (match wt with
                          | Given _ => WClose ret fin'
                          | Wrapped t d => WDone t d ret fin'
                          end))) ∧
     (mem s' = mem s ∨
      mem s' = with_pool (set_errChan
                            (MkChan (buf (errChan (pool (mem s))) ++ [DeadlineExceeded])
                                    (cap (errChan (pool (mem s)))) false)) (mem s) ∨
      mem s' = set_logged (logged (mem s) ++ [DeadlineExceeded]) (mem s) ∨
      mem s' = with_pool (set_closed 1) (mem s)) ∧
     (∀ e, pc = WdSelect e → k = Run →
        fins (mem s) !! fin = Some true ∧ mem s' = mem s ∧
        threads s' !! tid = Some Exited) ∧
     (pc = WdSelect false → step s (Deadline, tid) = None)) ∧
  (run one_quick_task task_returns_in_time = Some returned_in_time ∧
   forallb (λ a : Action, negb (a.2 =? 3)%nat) task_returns_in_time = true ∧
   threads returned_in_time !! 3%nat = Some (Watchdog (WdSelect false) 0) ∧
   fins (mem returned_in_time) !! 0%nat = Some true ∧
   ran (mem returned_in_time) = [Given (Closure 1 None)] ∧
   buf (errChan (pool (mem returned_in_time))) = [] ∧
   closed (pool (mem returned_in_time)) = 0 ∧
   ∃ s1 s2,
     run returned_in_time deadline_then_Done = Some s1 ∧
     buf (errChan (pool (mem s1))) = [DeadlineExceeded] ∧
     logged (mem s1) = [DeadlineExceeded] ∧
     closed (pool (mem s1)) = 1 ∧
     ran (mem s1) = [Given (Closure 1 None)] ∧
     run s1 Wait_after_deadline = Some s2 ∧
     threads s2 !! 0%nat = Some (Client None [] [RetWait (Some DeadlineExceeded)])).
Proof.
  split.
  - intros s k tid pc fin s' Herr Ht Hstep.
    pose proof Hstep as (t & t' & m' & sp & Hp & Ht0 & Hs & Heq)%step_inv.
    simpl in Ht0, Hs. rewrite Ht in Ht0. injection Ht0 as <-.
    destruct (watchdog_step_shape _ _ _ _ _ _ _ Herr Hs)
      as (-> & Hpan & Hran & Hmem & Hfin).
    rewrite app_nil_r in Heq.
    assert (∀ tid', tid' ≠ tid → threads s' !! tid' = threads s !! tid') as Hother.
    { intros tid' Hne. subst s'. simpl. by apply list_lookup_insert_ne. }
    split; [by subst s'; simpl; rewrite length_insert|].
    split; [done|]. split; [|split; [|split]].
    + intros tid' wt fin' id ret Hw Hf.
      assert (tid' ≠ tid) as Hne by (intros ->; congruence).
      assert (threads s' !! tid' = Some (Worker (WCall wt fin'))) as Hw'
        by (by rewrite Hother).
      split; [done|].
      destruct (call_returns s' tid' wt fin' id ret) as (s'' & ? & Hr & ?); auto.
      { subst s'; simpl. congruence. }
      exists s''. repeat split; auto. rewrite Hr. subst s'; simpl. by rewrite Hran.
    + by subst s'.
    + intros e -> ->. destruct (Hfin e eq_refl eq_refl) as (? & -> & ->).
      subst s'; simpl. repeat split; auto.
      apply list_lookup_insert_eq; eauto using lookup_lt_Some.
    + intros ->. by apply (step_blocked s (Deadline, tid) _ Ht).
  - split; [vm_compute; reflexivity|].
    do 6 (split; [reflexivity|]).
    exists (state_after returned_in_time deadline_then_Done),
      (state_after returned_in_time (deadline_then_Done ++ Wait_after_deadline)).
    split; [vm_compute; reflexivity|].
    do 4 (split; [reflexivity|]).
    split; vm_compute; reflexivity.
Qed.

Lemma watchdog_can_fire_after_the_task_finished_witness :
  threads (state_after first_deadline_passed [(Run, 4%nat)]) !! 2%nat
  = Some (Worker (WCall (Given (Closure 1 None)) 0)) ∧
  ∃ s'',
    step (state_after first_deadline_passed [(Run, 4%nat)]) (Run, 2%nat) = Some s'' ∧
    ran (mem s'') = ran (mem first_deadline_passed) ++ [Given (Closure 1 None)] ∧
    threads s'' !! 2%nat = Some (Worker (WClose None 0)).
Proof.
  assert (step first_deadline_passed (Run, 4%nat)
          = Some (state_after first_deadline_passed [(Run, 4%nat)])) as Hstep
    by (vm_compute; reflexivity).
  exact (proj1 (proj2 (proj2
    (proj1 watchdog_can_fire_after_the_task_finished
       first_deadline_passed Run 4%nat WdSend 0%nat
       (state_after first_deadline_passed [(Run, 4%nat)]) eq_refl eq_refl Hstep)))
    2%nat (Given (Closure 1 None)) 0%nat 1%nat None eq_refl eq_refl).
Defined.

(** C9.  A caller of [Do] or [DoWait] that is past its check of the closed
    flag and reaches its send (line 48, line 63) once the task queue has
    been closed panics with a send on a closed channel, which stops the
    program; and such states are reached: with [Do] (with [DoWait]) and
    [Wait] called from two goroutines, there is a schedule in which the
    check passes with the flag 0, [Wait] closes the queue, and the send
    panics. *)
Theorem Do_after_Wait_sends_on_closed_channel :
  (∀ s tid fr script rets,
     panicked (mem s) = None →
     threads s !! tid = Some (Client (Some fr) script rets) →
     (∃ fn, fr = InDo (DoSend fn)) ∨ (∃ t d, fr = InDoWait (DwSend t d)) →
     chan_closed (task (pool (mem s))) = true →
     ∃ s', step s (Run, tid) = Some s' ∧
       panicked (mem s') = Some SendOnClosedChannel ∧
       ∀ a, step s' a = None) ∧
  (∃ s s',
     run Do_races_Wait check_then_close = Some s ∧
     threads s !! 0%nat = Some (Client (Some (InDo (DoSend (Closure 0 None)))) [] []) ∧
     closed (pool (mem s)) = 0 ∧
     chan_closed (task (pool (mem s))) = true ∧
     step s (Run, 0%nat) = Some s' ∧
     panicked (mem s') = Some SendOnClosedChannel) ∧
  (∃ s s',
     run DoWait_races_Wait make_then_close = Some s ∧
     threads s !! 0%nat
     = Some (Client (Some (InDoWait (DwSend (Closure 0 None) 0))) [] []) ∧
     closed (pool (mem s)) = 0 ∧
     chan_closed (task (pool (mem s))) = true ∧
     step s (Run, 0%nat) = Some s' ∧
     panicked (mem s') = Some SendOnClosedChannel).
Proof.
  split; [|split].
  - intros s tid fr script rets Hp Ht Hfr Hc. eexists. split; [|split].
    + by apply send_on_closed_task_channel.
    + done.
    + intros a. unfold step. done.
  - eexists _, _. split; [vm_compute; reflexivity|]. by vm_compute.
  - eexists _, _. split; [vm_compute; reflexivity|]. by vm_compute.
Qed.

Lemma Do_after_Wait_sends_on_closed_channel_witness :
  ∃ s', step Do_checked_Wait_closed (Run, 0%nat) = Some s' ∧
    panicked (mem s') = Some SendOnClosedChannel ∧
    ∀ a, step s' a = None.
Proof.
  apply (proj1 Do_after_Wait_sends_on_closed_channel Do_checked_Wait_closed 0%nat
           (InDo (DoSend (Closure 0 None))) [] []).
  - reflexivity.
  - reflexivity.
  - left. exists (Closure 0 None). reflexivity.
  - reflexivity.
Defined.

(** C1.  [Wait], action by action, in a reachable state.  At line 117 it
    closes the (open) task queue and keeps what is buffered.  At line 118 it
    cannot proceed while [p.wg] is not zero, and when [p.wg] is zero it
    proceeds and every worker has terminated: each worker thread is at its
    exit, [loop] has no worker left to start, and if the pool was started
    the workers that terminated are [maxWorkersCount] many.  At lines
    119-124 it always proceeds: it returns the error that heads the error
    slot and removes it, or nil when the slot is empty. *)
Theorem Wait_closes_joins_and_reports s tid pc script rets :
  reachable s →
  panicked (mem s) = None →
  threads s !! tid = Some (Client (Some (InWait pc)) script rets) →
  match pc with
  | WaitClose =>
      chan_closed (task (pool (mem s))) = false →
      step s (Run, tid)
      = Some (MkState
                (with_pool (set_task (MkChan (buf (task (pool (mem s))))
                                             (cap (task (pool (mem s)))) true))
                           (mem s))
                (<[tid:=Client (Some (InWait WaitJoin)) script rets]> (threads s)))
  | WaitJoin =>
      (wg (pool (mem s)) ≠ 0 → step s (Run, tid) = None) ∧
      (wg (pool (mem s)) = 0 →
       step s (Run, tid)
       = Some (MkState (mem s)
                 (<[tid:=Client (Some (InWait WaitSelect)) script rets]> (threads s))) ∧
       (∀ tid' pc', threads s !! tid' = Some (Worker pc') → pc' = WExit) ∧
       (∀ tid' i, threads s !! tid' = Some (Looping i) →
          i = maxWorkersCount (pool (mem s))) ∧
       (start (pool (mem s)) = true →
        sumZ terminated (threads s) = maxWorkersCount (pool (mem s))))
  | WaitSelect =>
      step s (Run, tid)
      = Some (MkState
                (match buf (errChan (pool (mem s))) with
                 | _ :: q =>
                     with_pool (set_errChan (MkChan q (cap (errChan (pool (mem s))))
                                               (chan_closed (errChan (pool (mem s))))))
                               (mem s)
                 | [] => mem s
                 end)
                (<[tid:=Client None script
                          (rets ++ [RetWait (head (buf (errChan (pool (mem s)))))])]>
                   (threads s)))
  end.
Proof.
  intros Hreach Hp Ht. apply reachable_inv in Hreach as (Hj & _ & _).
  destruct pc.
  - intros Hc. unfold step. rewrite Hp. simpl. rewrite Ht. simpl.
    unfold close. rewrite Hc. simpl. by rewrite app_nil_r.
  - split.
    + intros Hwg. apply (step_blocked s (Run, tid) _ Ht). simpl.
      by apply Z.eqb_neq in Hwg as ->.
    + intros Hwg. split; [|by apply joined_all_terminated].
      unfold step. rewrite Hp. simpl. rewrite Ht. simpl. rewrite Hwg. simpl.
      by rewrite app_nil_r.
  - unfold step. rewrite Hp. simpl. rewrite Ht. simpl. unfold recv.
    destruct (buf (errChan (pool (mem s)))) as [|e q]; simpl;
      [destruct (chan_closed (errChan (pool (mem s)))); simpl|];
      by rewrite app_nil_r.
Qed.

Lemma Wait_closes_joins_and_reports_witness :
  step workers_joined (Run, 0%nat)
  = Some (MkState (mem workers_joined)
            (<[0%nat:=Client (Some (InWait WaitSelect)) [] []]>
               (threads workers_joined))) ∧
  (∀ tid' pc', threads workers_joined !! tid' = Some (Worker pc') → pc' = WExit) ∧
  sumZ terminated (threads workers_joined) = 2.
Proof.
  assert (reachable workers_joined) as Hr.
  { exists 2,
      [[CallSetTimeout 5; CallDo (Closure 1 None); CallDo (Closure 2 None); CallWait]],
      (both_deadlines_pass ++ tasks_return).
    vm_compute; reflexivity. }
  destruct (Wait_closes_joins_and_reports workers_joined 0%nat WaitJoin [] []
              Hr eq_refl eq_refl) as [_ H].
  destruct (H eq_refl) as (H1 & H2 & _ & H3).
  split; [exact H1|]. split; [exact H2|]. exact (H3 eq_refl).
Defined.

(** C6.  A caller of [DoWait task] that waits on its [doneChan] (line 68), in
    a reachable state: it cannot proceed while the channel is not closed;
    when the channel is closed the closure around [task] has called [task]
    and [task] has returned (it is in [ran], where a function is recorded
    when it returns); so whenever the caller does proceed, which is the
    return of [DoWait], [task] has fully executed. *)
Theorem DoWait_returns_after_the_task s tid t d script rets :
  reachable s →
  threads s !! tid = Some (Client (Some (InDoWait (DwRecv t d))) script rets) →
  (dones (mem s) !! d ≠ Some true → step s (Run, tid) = None) ∧
  (dones (mem s) !! d = Some true → Wrapped t d ∈ ran (mem s)) ∧
  (∀ s', step s (Run, tid) = Some s' →
     Wrapped t d ∈ ran (mem s) ∧ mem s' = mem s ∧
     threads s' !! tid = Some (Client None script rets)).
Proof.
  intros Hreach Ht. apply reachable_inv in Hreach as (_ & (_ & Hcoh & Hdone & _) & _).
  assert (dones (mem s) !! d = Some true → Wrapped t d ∈ ran (mem s)) as Hran.
  { intros Hd. destruct (Hdone d Hd) as [f Hf].
    assert (f = t) as ->; [|done].
    apply (Hcoh f t d).
    - apply tagged_mem. unfold mtags. apply elem_of_app; right.
      apply list_elem_of_bind. exists (Wrapped f d). split; [|done]. by left.
    - apply (tagged_thread s tid _ _ Ht). by left. }
  split; [|split; [done|]].
  - intros Hd. apply (step_blocked s (Run, tid) _ Ht). simpl.
    destruct (dones (mem s) !! d) as [[]|]; done.
  - intros s' (t0 & t' & m' & sp & Hp & Ht0 & Hs & ->)%step_inv.
    simpl in Ht0, Hs. rewrite Ht in Ht0. injection Ht0 as <-. simpl in Hs.
    destruct (dones (mem s) !! d) as [[]|] eqn:Hd; simplify_eq/=.
    repeat split; auto. rewrite app_nil_r.
    apply list_lookup_insert_eq; eauto using lookup_lt_Some.
Qed.

Lemma DoWait_returns_after_the_task_witness :
  Wrapped (Closure 1 None) 0 ∈ ran (mem doneChan_closed).
Proof.
  assert (reachable doneChan_closed) as Hr.
  { exists 1, [[CallDoWait (Closure 1 None)]], task_completes.
    vm_compute; reflexivity. }
  exact (proj1 (proj2
    (DoWait_returns_after_the_task doneChan_closed 0%nat (Closure 1 None) 0%nat [] []
       Hr eq_refl)) eq_refl).
Defined.

(** C10.  In a reachable state, a worker that has received the closure of a
    [DoWait task] call and finds the closed flag 1 discards it without
    running it; the caller of that [DoWait] is waiting on [doneChan] (line
    68), and in every state the program reaches afterwards [doneChan] is
    still open, the caller is still there and cannot proceed: that [DoWait]
    never returns. *)
Theorem discarded_DoWait_blocks_forever s tid t d :
  reachable s →
  panicked (mem s) = None →
  threads s !! tid = Some (Worker (WCheck (Wrapped t d))) →
  closed (pool (mem s)) = 1 →
  ∃ s1 tid' script rets,
    step s (Run, tid) = Some s1 ∧
    ran (mem s1) = ran (mem s) ∧
    threads s1 !! tid = Some (Worker WRange) ∧
    threads s1 !! tid' = Some (Client (Some (InDoWait (DwRecv t d))) script rets) ∧
    ∀ acts s2, run s1 acts = Some s2 →
      dones (mem s2) !! d = Some false ∧
      threads s2 !! tid' = Some (Client (Some (InDoWait (DwRecv t d))) script rets) ∧
      step s2 (Run, tid') = None.
Proof.
  intros Hreach Hp Ht Hc.
  apply reachable_inv in Hreach
    as (_ & (Hlt & Hcoh & _ & _) & (Hle & _ & Hclosed & Hown)).
  assert (∀ x, x ∈ threads s → 0 ≤ holds d x) as Hpos
    by (intros; apply holds_nonneg).
  assert (0 ≤ sumZ (closes d) (buf (task (pool (mem s))))) as Hq
    by (apply sumZ_nonneg; intros; apply closes_nonneg).
  assert (holds d (Worker (WCheck (Wrapped t d))) = 1) as Hone
    by (simpl; by rewrite decide_True).
  assert (tagged s (t, d)) as Htag by (apply (tagged_thread s tid _ _ Ht); by left).
  assert (1 ≤ holders d s) as Hge.
  { pose proof (sumZ_lookup_le (holds d) _ _ _ Hpos Ht). unfold holders. lia. }
  assert (dones (mem s) !! d = Some false) as Hd.
  { apply Hlt in Htag. simpl in Htag. apply lookup_lt_is_Some in Htag as [[] Hb]; [|done].
    apply Hclosed in Hb. lia. }
  destruct (Hown d Hd) as (tid' & t0 & Ht0 & Haw).
  assert (tid' ≠ tid ∧ ∃ script rets,
            t0 = Client (Some (InDoWait (DwRecv t d))) script rets)
    as (Hne & script & rets & ->).
  { destruct t0 as [[[| |[]| |]|] script rets| | | |]; simplify_eq/=;
      apply bool_decide_eq_true in Haw as ->.
    - assert (tid' ≠ tid) as Hne by (intros ->; congruence).
      pose proof (sumZ_lookup2_le (holds d) _ _ _ _ _ Hpos Hne Ht0 Ht) as Hsum.
      simpl in Hsum. rewrite decide_True in Hsum by done.
      specialize (Hle d). unfold holders in Hle. lia.
    - split; [intros ->; congruence|]. exists script, rets.
      assert (t0 = t) as ->; [|done].
      apply (Hcoh t0 t d); [|done]. apply (tagged_thread s tid' _ _ Ht0). by left. }
  exists (MkState (mem s) (<[tid:=Worker WRange]> (threads s))), tid', script, rets.
  split; [by apply (check_discards s tid (Wrapped t d)); auto|]. split; [done|]. simpl.
  split; [apply list_lookup_insert_eq; eauto using lookup_lt_Some|].
  assert (<[tid:=Worker WRange]> (threads s) !! tid'
          = Some (Client (Some (InDoWait (DwRecv t d))) script rets)) as Ht1
    by (by rewrite list_lookup_insert_ne).
  split; [done|].
  assert (abandoned d (MkState (mem s) (<[tid:=Worker WRange]> (threads s)))) as Hab.
  { split; [done|]. unfold holders in *; simpl.
    rewrite (sumZ_insert _ _ _ _ _ Ht). specialize (Hle d). simpl in *.
    assert (0 ≤ sumZ (holds d) (<[tid:=Worker WRange]> (threads s))).
    { apply sumZ_nonneg. intros. apply holds_nonneg. }
    rewrite (sumZ_insert _ _ _ _ _ Ht) in *. simpl in *. lia. }
  intros acts s2 Hrun.
  destruct (abandoned_forever d _ acts s2 tid' t script rets Hrun Hab Ht1) as [[Hd2 _] Ht2].
  repeat split; auto.
  apply (step_blocked s2 (Run, tid') _ Ht2). simpl. by rewrite Hd2.
Qed.

Lemma discarded_DoWait_blocks_forever_witness :
  ∃ s1 tid' script rets,
    step closure_received_when_closed (Run, 2%nat) = Some s1 ∧
    ran (mem s1) = ran (mem closure_received_when_closed) ∧
    threads s1 !! 2%nat = Some (Worker WRange) ∧
    threads s1 !! tid'
    = Some (Client (Some (InDoWait (DwRecv (Closure 2 None) 0))) script rets) ∧
    ∀ acts s2, run s1 acts = Some s2 →
      dones (mem s2) !! 0%nat = Some false ∧
      threads s2 !! tid'
      = Some (Client (Some (InDoWait (DwRecv (Closure 2 None) 0))) script rets) ∧
      step s2 (Run, tid') = None.
Proof.
  assert (reachable closure_received_when_closed) as Hr.
  { exists 1,
      [[CallDo (Closure 1 (Some (TaskError 7))); CallDoWait (Closure 2 None);
        CallWait]],
      error_closes_pool.
    vm_compute; reflexivity. }
  exact (discarded_DoWait_blocks_forever closure_received_when_closed 2%nat
           (Closure 2 None) 0%nat Hr eq_refl eq_refl eq_refl).
Defined.

(** C2, evaluated on [New(2)], [SetTimeout(5)], two [Do] of tasks slower
    than the timeout, [Wait()].  When both deadlines have passed and the
    first watchdog has filled the error slot, the second watchdog is at its
    send (line 89) and cannot proceed: the send is a blocking one, its
    error is kept, not dropped.  Once [Wait] has returned the first error
    and emptied the slot, that send goes through and the slot holds a
    second value. *)
Theorem second_timeout_error_is_queued_not_dropped :
  ∃ s1 s2 s3,
    run two_slow_tasks both_deadlines_pass = Some s1 ∧
    buf (errChan (pool (mem s1))) = [DeadlineExceeded] ∧
    threads s1 !! 5%nat = Some (Watchdog WdSend 1) ∧
    step s1 (Run, 5%nat) = None ∧
    run s1 (tasks_return ++ Wait_returns) = Some s2 ∧
    threads s2 !! 0%nat = Some (Client None [] [RetWait (Some DeadlineExceeded)]) ∧
    buf (errChan (pool (mem s2))) = [] ∧
    step s2 (Run, 5%nat) = Some s3 ∧
    buf (errChan (pool (mem s3))) = [DeadlineExceeded].
Proof.
  eexists _, _, _.
  split; [vm_compute; reflexivity|].
  split; [reflexivity|]. split; [reflexivity|]. split; [vm_compute; reflexivity|].
  split; [vm_compute; reflexivity|].
  split; [reflexivity|]. split; [reflexivity|].
  split; [vm_compute; reflexivity|]. reflexivity.
Qed.

(** ** Further properties of the pool *)

Lemma sumZ_plus {A} (f g : A → Z) (l : list A) :
  sumZ (λ x, f x + g x) l = sumZ f l + sumZ g l.
Proof. induction l as [|x l IH]; simpl; [done|]. rewrite IH. lia. Qed.

Lemma sumZ_ext {A} (f g : A → Z) (l : list A) :
  (∀ x, f x = g x) → sumZ f l = sumZ g l.
Proof. intros H. induction l as [|x l IH]; simpl; [done|]. by rewrite IH, H. Qed.

Lemma sumZ_positive {A} (f : A → Z) (l : list A) :
  1 ≤ sumZ f l → ∃ i x, l !! i = Some x ∧ 1 ≤ f x.
Proof.
  induction l as [|x l IH]; simpl; [lia|]. intros H.
  destruct (decide (1 ≤ f x)); [by exists 0%nat, x|].
  destruct IH as (i & y & ? & ?); [lia|]. by exists (S i), y.
Qed.

Lemma thread_step_queue k t m t' m' sp :
  thread_step k t m = Some (t', m', sp) →
  cap (task (pool m')) = cap (task (pool m)) ∧
  maxWorkersCount (pool m') = maxWorkersCount (pool m) ∧
  (Z.of_nat (length (buf (task (pool m)))) ≤ cap (task (pool m)) →
   Z.of_nat (length (buf (task (pool m')))) ≤ cap (task (pool m))) ∧
  (chan_closed (task (pool m)) = true →
   chan_closed (task (pool m')) = true ∧
   (buf (task (pool m)) = [] → buf (task (pool m')) = [])) ∧
  (left_loop t' = true →
   left_loop t = true ∨ (chan_closed (task (pool m')) = true ∧ buf (task (pool m')) = [])) ∧
  (∀ x, x ∈ sp → left_loop x = false ∧ past_start x = false) ∧
  (start (pool m) = true → start (pool m') = true) ∧
  (start (pool m') = false → buf (task (pool m)) = [] → past_start t = false →
   buf (task (pool m')) = [] ∧ past_start t' = false).
Proof.
  intros H. thread_cases H; bool_to_Z; simpl.
  all: repeat split; try done; try (in_spawned; done).
  all: try (intros; simplify_eq/=; auto; congruence).
  all: rewrite ?length_app; simpl; intros;
       repeat match goal with
       | H : buf _ = _ :: _ |- _ => rewrite H in *; simpl in *
       end; try lia; try done; auto.
Qed.


Lemma step_maxWorkersCount s a s' :
  step s a = Some s' →
  maxWorkersCount (pool (mem s')) = maxWorkersCount (pool (mem s)).
Proof.
  intros (t & t' & m' & sp & _ & _ & Hs & ->)%step_inv.
  by destruct (thread_step_queue _ _ _ _ _ _ Hs) as (_ & ? & _).
Qed.

Lemma queue_inv_init max scripts : queue_inv (init max scripts).
Proof.
  unfold queue_inv, init; simpl. repeat split; try done; try lia.
  all: try (case_match; bool_to_Z; lia).
  all: intros; match goal with
       | H : _ ∈ _ <$> _ |- _ => by apply list_elem_of_fmap in H as [sc [-> _]]
       end.
Qed.

Lemma queue_inv_step s a s' : step s a = Some s' → queue_inv s → queue_inv s'.
Proof.
  intros (t & t' & m' & sp & _ & Ht & Hs & ->)%step_inv (Hcap & Hlen & Hpre & Hleft).
  assert (t ∈ threads s) as Hin by (apply list_elem_of_lookup; eauto).
  destruct (thread_step_queue _ _ _ _ _ _ Hs)
    as (Hcap' & Hmax & Hlen' & Hclosed & Hleft' & Hsp & Hst & Hpre').
  unfold queue_inv; simpl. rewrite Hcap', Hmax.
  split; [done|]. split; [auto|]. split.
  - intros Hst'.
    assert (start (pool (mem s)) = false) as Hst0.
    { destruct (start (pool (mem s))); [|done]. rewrite Hst in Hst'; done. }
    destruct (Hpre Hst0) as [Hb Hps].
    destruct (Hpre' Hst' Hb (Hps _ Hin)) as [? ?]. split; [done|].
    intros x [->|[?|?]]%elem_of_insert_app; [done|by apply Hps|by apply Hsp].
  - intros x [->|[Hx|Hx]]%elem_of_insert_app Hl.
    + destruct (Hleft' Hl) as [Hl0|?]; [|done].
      destruct (Hleft _ Hin Hl0) as [Hc Hb]. destruct (Hclosed Hc); auto.
    + destruct (Hleft _ Hx Hl) as [Hc Hb]. destruct (Hclosed Hc); auto.
    + destruct (Hsp _ Hx); congruence.
Qed.

Lemma queue_inv_reachable s : reachable s → queue_inv s.
Proof.
  intros (max & scripts & acts & Hrun).
  pose proof (queue_inv_init max scripts) as H0.
  revert Hrun H0. generalize (init max scripts). clear max scripts.
  induction acts as [|a acts IH]; intros s0 Hrun H0; simplify_eq/=; [done|].
  destruct (step s0 a) as [s1|] eqn:Hs; simplify_eq/=.
  eauto using queue_inv_step.
Qed.

Lemma worker_count s :
  reachable s →
  sumZ is_worker (threads s) ≤ maxWorkersCount (pool (mem s)) ∧
  (start (pool (mem s)) = false → sumZ is_worker (threads s) = 0) ∧
  (start (pool (mem s)) = true →
   (∀ tid i, threads s !! tid = Some (Looping i) → i = maxWorkersCount (pool (mem s))) →
   sumZ is_worker (threads s) = maxWorkersCount (pool (mem s))).
Proof.
  intros (Hj & _)%reachable_inv. destruct Hj as (Hmax & Hpos & Hwg & Hterm).
  set (mx := maxWorkersCount (pool (mem s))) in *.
  assert (sumZ is_worker (threads s) + sumZ (to_start mx) (threads s)
          = sumZ terminated (threads s) + sumZ (owes mx) (threads s)) as Hsum.
  { rewrite <- !sumZ_plus. apply sumZ_ext. intros [| | [] | |]; simpl; lia. }
  assert (∀ x, x ∈ threads s → 0 ≤ to_start mx x) as Hts.
  { intros x Hx. specialize (Hpos x Hx). by destruct x. }
  pose proof (sumZ_nonneg _ _ Hts).
  assert (0 ≤ sumZ is_worker (threads s)).
  { apply sumZ_nonneg. intros [] _; simpl; lia. }
  rewrite <- Hwg in Hsum. split; [destruct (start (pool (mem s))); lia|]. split.
  - intros Hst. rewrite Hst in Hterm. lia.
  - intros Hst Hloop. rewrite Hst in Hterm.
    assert (sumZ (to_start mx) (threads s) = 0) as Hz; [|lia].
    assert (∀ l : list Thread, (∀ x, x ∈ l → to_start mx x = 0) →
              sumZ (to_start mx) l = 0) as Hall.
    { induction l as [|x l IH]; intros Hl; simpl; [done|].
      rewrite (Hl x) by left. rewrite IH; [done|]. intros; apply Hl; by right. }
    apply Hall. intros x [tid Hx]%list_elem_of_lookup.
    destruct x; simpl; try done. specialize (Hloop _ _ Hx). lia.
Qed.

(** X1.  In every reachable state the pool has at most [maxWorkersCount]
    worker goroutines; it has none before the first [Do] or [DoWait] has run
    [p.start.Do]; and once [loop] has gone through its [for] it has exactly
    [maxWorkersCount], however many callers raced to start it. *)
Theorem workers_are_started_once_and_bounded s :
  reachable s →
  sumZ is_worker (threads s) ≤ maxWorkersCount (pool (mem s)) ∧
  (start (pool (mem s)) = false → sumZ is_worker (threads s) = 0) ∧
  (start (pool (mem s)) = true →
   (∀ tid i, threads s !! tid = Some (Looping i) → i = maxWorkersCount (pool (mem s))) →
   sumZ is_worker (threads s) = maxWorkersCount (pool (mem s))).
Proof. apply worker_count. Qed.

Lemma workers_are_started_once_and_bounded_witness :
  sumZ is_worker (threads workers_joined) ≤ 2.
Proof.
  assert (reachable workers_joined) as Hr.
  { exists 2,
      [[CallSetTimeout 5; CallDo (Closure 1 None); CallDo (Closure 2 None); CallWait]],
      (both_deadlines_pass ++ tasks_return).
    vm_compute; reflexivity. }
  exact (proj1 (workers_are_started_once_and_bounded workers_joined Hr)).
Defined.


(** X2.  In every reachable state the task queue has the capacity [New] gave
    it, [maxWorkersCount], and holds at most that many handlers. *)
Theorem queue_never_exceeds_its_capacity s :
  reachable s →
  cap (task (pool (mem s))) = maxWorkersCount (pool (mem s)) ∧
  Z.of_nat (length (buf (task (pool (mem s))))) ≤ maxWorkersCount (pool (mem s)).
Proof.
  intros (Hcap & Hlen & _)%queue_inv_reachable. split; [done|]. by rewrite <- Hcap.
Qed.

Lemma queue_never_exceeds_its_capacity_witness :
  cap (task (pool (mem closure_queued_when_closed))) = 1 ∧
  Z.of_nat (length (buf (task (pool (mem closure_queued_when_closed))))) ≤ 1.
Proof.
  apply (queue_never_exceeds_its_capacity closure_queued_when_closed).
  exists 1,
    [[CallDo (Closure 1 (Some (TaskError 7))); CallDoWait (Closure 2 None); CallWait]],
    (by_thread 0 4 ++ by_thread 1 2 ++ by_thread 2 3 ++ by_thread 0 5 ++ by_thread 2 5).
  vm_compute; reflexivity.
Defined.


Lemma joined_queue_empty s :
  reachable s →
  wg (pool (mem s)) = 0 →
  buf (task (pool (mem s))) = [] ∧ IsDone (Some (pool (mem s))) = true.
Proof.
  intros Hr Hwg.
  assert (buf (task (pool (mem s))) = []) as Hb; [|by unfold IsDone; rewrite Hb].
  pose proof (queue_inv_reachable s Hr) as (_ & _ & Hpre & Hleft).
  apply reachable_inv in Hr as (Hj & _).
  destruct (start (pool (mem s))) eqn:Hst; [|by destruct Hpre].
  destruct (joined_all_terminated s Hj Hwg) as (_ & _ & Hterm).
  destruct Hj as (Hmax & _).
  destruct (sumZ_positive terminated (threads s)) as (i & x & Hx & Hone).
  { rewrite Hterm by done. done. }
  destruct (Hleft x) as [_ ?]; [apply list_elem_of_lookup; eauto| |done].
  by destruct x as [| |[]| |].
Qed.

(** X3.  In every reachable state in which [p.wg] is zero, which is when the
    join of [Wait] passes, the task queue is empty: [IsDone] returns true. *)
Theorem joined_pool_has_an_empty_queue s :
  reachable s →
  wg (pool (mem s)) = 0 →
  buf (task (pool (mem s))) = [] ∧ IsDone (Some (pool (mem s))) = true.
Proof. apply joined_queue_empty. Qed.

Lemma joined_pool_has_an_empty_queue_witness :
  buf (task (pool (mem workers_joined))) = [] ∧
  IsDone (Some (pool (mem workers_joined))) = true.
Proof.
  apply (joined_pool_has_an_empty_queue workers_joined); [|reflexivity].
  exists 2,
    [[CallSetTimeout 5; CallDo (Closure 1 None); CallDo (Closure 2 None); CallWait]],
    (both_deadlines_pass ++ tasks_return).
  vm_compute; reflexivity.
Defined.


Lemma calls_bounds f wt : 0 ≤ calls f wt ≤ 1.
Proof. unfold calls. case_decide; lia. Qed.

Lemma submits_nonneg f c : 0 ≤ submits f c.
Proof. destruct c; simpl; try case_decide; lia. Qed.

Lemma wants_nonneg f t : 0 ≤ wants f t.
Proof.
  assert (∀ l, 0 ≤ sumZ (submits f) l) as Hs.
  { intros l. apply sumZ_nonneg. intros. apply submits_nonneg. }
  destruct t as [fr script rets| |pc| |]; simpl; try lia.
  - specialize (Hs script).
    repeat case_match; try lia;
      match goal with |- context [calls f ?wt] => pose proof (calls_bounds f wt) end; lia.
  - destruct pc; try lia; apply calls_bounds.
Qed.

Lemma thread_step_wants f k t m t' m' sp :
  thread_step k t m = Some (t', m', sp) →
  sumZ (calls f) (ran m') + sumZ (calls f) (buf (task (pool m')))
  + wants f t' + sumZ (wants f) sp
  ≤ sumZ (calls f) (ran m) + sumZ (calls f) (buf (task (pool m))) + wants f t.
Proof.
  intros H. thread_cases H.
  all: simpl; use_buf; rewrite ?sumZ_app; simpl; unfold calls; simpl.
  all: repeat case_decide; simplify_eq/=; try lia.
Qed.

Lemma step_runs_and_pending f s a s' :
  step s a = Some s' → runs_and_pending f s' ≤ runs_and_pending f s.
Proof.
  intros (t & t' & m' & sp & _ & Ht & Hs & ->)%step_inv.
  pose proof (thread_step_wants f _ _ _ _ _ _ Hs).
  unfold runs_and_pending; simpl.
  rewrite sumZ_app, (sumZ_insert _ _ _ t) by done. lia.
Qed.

Lemma run_runs_and_pending f s acts s' :
  run s acts = Some s' → runs_and_pending f s' ≤ runs_and_pending f s.
Proof.
  revert s. induction acts as [|a acts IH]; intros s Hrun; simplify_eq/=; [lia|].
  destruct (step s a) as [s1|] eqn:Hs; simplify_eq/=.
  pose proof (step_runs_and_pending f _ _ _ Hs). pose proof (IH _ Hrun). lia.
Qed.

(** X4.  No function runs more often than it was submitted: along every
    schedule, the number of runs of [f] recorded in [ran] is at most the
    number of [Do(f)] and [DoWait(f)] calls in the callers' scripts. *)
Theorem no_task_runs_more_often_than_submitted f max scripts acts s :
  run (init max scripts) acts = Some s →
  sumZ (calls f) (ran (mem s)) ≤ sumZ (λ sc, sumZ (submits f) sc) scripts.
Proof.
  intros Hrun. pose proof (run_runs_and_pending f _ _ _ Hrun) as Hle.
  assert (runs_and_pending f (init max scripts)
          = sumZ (λ sc, sumZ (submits f) sc) scripts) as Hinit.
  { unfold runs_and_pending, init; simpl.
    assert (∀ l : list (list Call),
              sumZ (wants f) ((λ sc, Client None sc []) <$> l)
              = sumZ (λ sc, sumZ (submits f) sc) l) as ->; [|lia].
    induction l as [|sc l IH]; [done|]. rewrite fmap_cons. simpl.
    by rewrite IH. }
  rewrite Hinit in Hle.
  assert (0 ≤ sumZ (calls f) (buf (task (pool (mem s))))).
  { apply sumZ_nonneg. intros. apply calls_bounds. }
  assert (0 ≤ sumZ (wants f) (threads s)).
  { apply sumZ_nonneg. intros. apply wants_nonneg. }
  unfold runs_and_pending in Hle. lia.
Qed.

Lemma no_task_runs_more_often_than_submitted_witness :
  sumZ (calls (Closure 1 None)) (ran (mem both_ran_Wait_returned)) ≤ 1.
Proof.
  apply (no_task_runs_more_often_than_submitted (Closure 1 None) 1
           [[CallDo (Closure 1 None); CallDo (Closure 2 None); CallWait]]
           run_both_and_Wait both_ran_Wait_returned).
  vm_compute; reflexivity.
Defined.


Lemma is_error_nonneg r : 0 ≤ is_error r.
Proof. destruct r as [[]|]; simpl; lia. Qed.

Lemma got_error_nonneg t : 0 ≤ got_error t.
Proof. destruct t; simpl; try lia. apply sumZ_nonneg. intros. apply is_error_nonneg. Qed.

Lemma fails_nonneg wt : 0 ≤ fails wt.
Proof. unfold fails. repeat case_match; lia. Qed.

Lemma thread_step_latch k t m t' m' sp :
  thread_step k t m = Some (t', m', sp) →
  cap (errChan (pool m)) = 1 →
  Z.of_nat (length (buf (errChan (pool m)))) + got_error t
  ≤ Z.of_nat (length (buf (errChan (pool m')))) + got_error t' + sumZ got_error sp ∧
  (storing t' = true →
   storing t = true ∨ 1 ≤ Z.of_nat (length (buf (errChan (pool m'))))) ∧
  (closed (pool m') = 1 → closed (pool m) = 1 ∨ storing t = true) ∧
  (∀ x, x ∈ sp → storing x = false ∧ carrying x = 0) ∧
  (carrying t = 1 →
   carrying t' = 1 ∨ 1 ≤ Z.of_nat (length (buf (errChan (pool m'))))) ∧
  (sumZ fails (ran m') = sumZ fails (ran m) ∨ carrying t' = 1).
Proof.
  intros H Hcap. thread_cases H; bool_to_Z; simpl.
  all: repeat split; try done; try (in_spawned; done); auto.
  all: rewrite ?sumZ_app, ?length_app; simpl; unfold fails; simpl; auto; try lia.
  all: repeat match goal with
       | H : buf _ = _ :: _ |- _ => rewrite H in *; simpl in *
       end; try lia; auto.
  all: try (intros; right; lia).
Qed.

Lemma thread_step_errChan_cap k t m t' m' sp :
  thread_step k t m = Some (t', m', sp) →
  cap (errChan (pool m')) = cap (errChan (pool m)).
Proof. intros H. by destruct (thread_step_errChan _ _ _ _ _ _ H) as (_ & ? & _). Qed.

Lemma latch_inv_init max scripts : latch_inv (init max scripts).
Proof.
  unfold latch_inv, latched, init; simpl. split; [done|]. split.
  - intros [?|(t & [sc [-> _]]%list_elem_of_fmap & ?)]; done.
  - lia.
Qed.

Lemma latch_inv_step s a s' : step s a = Some s' → latch_inv s → latch_inv s'.
Proof.
  intros (t & t' & m' & sp & _ & Ht & Hs & ->)%step_inv (Hcap & Hst & Hfail).
  assert (t ∈ threads s) as Hin by (apply list_elem_of_lookup; eauto).
  destruct (thread_step_latch _ _ _ _ _ _ Hs Hcap)
    as (Hmono & Hstoring & Hclosed & Hsp & Hcarry & Hran).
  assert (0 ≤ sumZ got_error (<[a.2:=t']> (threads s) ++ sp)) as Hpos.
  { apply sumZ_nonneg. intros. apply got_error_nonneg. }
  assert (latched s ≤ latched (MkState m' (<[a.2:=t']> (threads s) ++ sp))) as Hle.
  { unfold latched; simpl. rewrite sumZ_app, (sumZ_insert _ _ _ t) by done. lia. }
  assert (1 ≤ Z.of_nat (length (buf (errChan (pool m')))) →
          1 ≤ latched (MkState m' (<[a.2:=t']> (threads s) ++ sp))) as Hnow.
  { unfold latched; simpl. lia. }
  split; [by simpl; rewrite (thread_step_errChan_cap _ _ _ _ _ _ Hs)|]. split.
  - simpl. intros [Hc|(x & Hx & Hsx)].
    + destruct (Hclosed Hc) as [?|?]; [|]; etrans; [|exact Hle| |exact Hle];
        apply Hst; eauto.
    + apply elem_of_insert_app in Hx as [->|[Hx|Hx]].
      * destruct (Hstoring Hsx) as [?|?]; [|by apply Hnow].
        etrans; [|exact Hle]. apply Hst; eauto.
      * etrans; [|exact Hle]. apply Hst; eauto.
      * destruct (Hsp _ Hx). congruence.
  - simpl. intros Hone.
    destruct Hran as [Heq|Hc'].
    + rewrite Heq in Hone. destruct (Hfail Hone) as [?|(x & Hx & Hcx)]; [left; lia|].
      apply list_elem_of_lookup in Hx as [i Hi].
      destruct (decide (i = a.2)) as [->|Hne].
      * simplify_eq. destruct (Hcarry Hcx) as [?|?]; [|left; by apply Hnow].
        right. exists t'. split; [|done].
        apply elem_of_app; left. apply list_elem_of_lookup. exists a.2.
        apply list_lookup_insert_eq; eauto using lookup_lt_Some.
      * right. exists x. split; [|done].
        apply elem_of_app; left. apply list_elem_of_lookup. exists i.
        by rewrite list_lookup_insert_ne.
    + right. exists t'. split; [|done].
      apply elem_of_app; left. apply list_elem_of_lookup. exists a.2.
      apply list_lookup_insert_eq; eauto using lookup_lt_Some.
Qed.

Lemma latch_inv_reachable s : reachable s → latch_inv s.
Proof.
  intros (max & scripts & acts & Hrun).
  pose proof (latch_inv_init max scripts) as H0.
  revert Hrun H0. generalize (init max scripts). clear max scripts.
  induction acts as [|a acts IH]; intros s0 Hrun H0; simplify_eq/=; [done|].
  destruct (step s0 a) as [s1|] eqn:Hs; simplify_eq/=.
  eauto using latch_inv_step.
Qed.

Lemma latched_visible s :
  1 ≤ latched s →
  buf (errChan (pool (mem s))) ≠ [] ∨
  ∃ tid fr script rets e,
    threads s !! tid = Some (Client fr script rets) ∧ RetWait (Some e) ∈ rets.
Proof.
  unfold latched. intros H.
  destruct (buf (errChan (pool (mem s)))) as [|e q]; [|by left]. right.
  destruct (sumZ_positive got_error (threads s)) as (tid & t & Ht & Hg);
    [simpl in H; lia|].
  destruct t as [fr script rets| | | |]; simpl in Hg; try lia.
  destruct (sumZ_positive is_error rets Hg) as (i & r & Hr & Hone).
  destruct r as [[e|]|]; simpl in Hone; try lia.
  exists tid, fr, script, rets, e. split; [done|]. apply list_elem_of_lookup; eauto.
Qed.

(** X5.  In every reachable state in which the closed flag is 1 an error
    has reached the error slot: it is in the slot, or a [Wait] has returned
    an error to some caller. *)
Theorem closed_pool_has_latched_an_error s :
  reachable s →
  closed (pool (mem s)) = 1 →
  buf (errChan (pool (mem s))) ≠ [] ∨
  ∃ tid fr script rets e,
    threads s !! tid = Some (Client fr script rets) ∧ RetWait (Some e) ∈ rets.
Proof.
  intros (_ & Hst & _)%latch_inv_reachable Hc. apply latched_visible. auto.
Qed.

Lemma closed_pool_has_latched_an_error_witness :
  buf (errChan (pool (mem closure_queued_when_closed))) ≠ [] ∨
  ∃ tid fr script rets e,
    threads closure_queued_when_closed !! tid = Some (Client fr script rets) ∧
    RetWait (Some e) ∈ rets.
Proof.
  apply (closed_pool_has_latched_an_error closure_queued_when_closed); [|reflexivity].
  exists 1,
    [[CallDo (Closure 1 (Some (TaskError 7))); CallDoWait (Closure 2 None); CallWait]],
    (by_thread 0 4 ++ by_thread 1 2 ++ by_thread 2 3 ++ by_thread 0 5 ++ by_thread 2 5).
  vm_compute; reflexivity.
Defined.


(** X6.  In every reachable state in which [p.wg] is zero and a task that ran
    returned an error, an error has reached the error slot: it is in the
    slot, so that the [Wait] whose join passes returns it, or an earlier
    [Wait] has returned one. *)
Theorem failed_task_is_reported_once_joined s wt id e :
  reachable s →
  wg (pool (mem s)) = 0 →
  wt ∈ ran (mem s) →
  func_of wt = Closure id (Some e) →
  buf (errChan (pool (mem s))) ≠ [] ∨
  ∃ tid fr script rets e',
    threads s !! tid = Some (Client fr script rets) ∧ RetWait (Some e') ∈ rets.
Proof.
  intros Hr Hwg [i Hi]%list_elem_of_lookup Hf.
  pose proof (latch_inv_reachable s Hr) as (_ & _ & Hfail).
  apply reachable_inv in Hr as (Hj & _).
  destruct (joined_all_terminated s Hj Hwg) as (Hexit & _).
  apply latched_visible. destruct Hfail as [?|(x & [j Hx]%list_elem_of_lookup & Hc)]; [|done|].
  - pose proof (sumZ_lookup_le fails (ran (mem s)) i wt) as Hle.
    assert (fails wt = 1) as Hone by (unfold fails; by rewrite Hf).
    rewrite Hone in Hle. apply Hle; [|done]. intros. apply fails_nonneg.
  - destruct x as [| |pc| |]; simpl in Hc; try lia.
    rewrite (Hexit _ _ Hx) in Hc. simpl in Hc. lia.
Qed.

Lemma failed_task_is_reported_once_joined_witness :
  buf (errChan (pool (mem failed_and_joined))) ≠ [] ∨
  ∃ tid fr script rets e',
    threads failed_and_joined !! tid = Some (Client fr script rets) ∧
    RetWait (Some e') ∈ rets.
Proof.
  apply (failed_task_is_reported_once_joined failed_and_joined
           (Given (Closure 1 (Some (TaskError 7)))) 1%nat (TaskError 7)).
  - exists 1, [[CallDo (Closure 1 (Some (TaskError 7))); CallWait]], fail_and_join.
    vm_compute; reflexivity.
  - reflexivity.
  - simpl. left.
  - reflexivity.
Defined.


Lemma thread_step_errors k t m t' m' sp :
  thread_step k t m = Some (t', m', sp) →
  (∀ e, e ∈ errs_of t' ++ buf (errChan (pool m')) ++ logged m' →
     e ∈ errs_of t ++ buf (errChan (pool m)) ++ logged m ∨
     returned_by_task e m' ∨
     (e = DeadlineExceeded ∧ ∃ pc fin, t = Watchdog pc fin)) ∧
  (∀ x, x ∈ sp → errs_of x = []).
Proof.
  intros H. thread_cases H.
  all: simpl; split; [|by intros; in_spawned].
  all: use_buf; rewrite ?bind_app, ?bind_cons; simpl; intros e0.
  all: repeat first [rewrite elem_of_app | rewrite elem_of_cons | rewrite elem_of_nil].
  all: try (by intuition eauto).
  all: try (intros [->|?]; [|by intuition eauto]; right; left;
            eexists _, _; split; [apply elem_of_app; right; by left|reflexivity]).
  all: try (intuition (subst; eauto 10)).
Qed.

Lemma thread_step_no_timeout k t m t' m' sp :
  thread_step k t m = Some (t', m', sp) →
  timeout (pool m) ≤ 0 → no_timeout_thread t = true →
  timeout (pool m') ≤ 0 ∧ no_timeout_thread t' = true ∧
  ∀ x, x ∈ sp → no_timeout_thread x = true.
Proof.
  intros H Hto Hq. thread_cases H; bool_to_Z; simpl in *.
  all: repeat match goal with
       | H : _ && _ = true |- _ => apply andb_true_iff in H as [? ?]
       | H : bool_decide _ = true |- _ => apply bool_decide_eq_true in H
       end.
  all: repeat split; try done; try lia; try (intros; in_spawned; done).
  all: try (apply andb_true_iff; split; try done; by apply bool_decide_eq_true).
Qed.

Lemma errors_thread s tid t e : threads s !! tid = Some t → e ∈ errs_of t → e ∈ errors s.
Proof.
  intros Ht He. apply elem_of_app; left. apply list_elem_of_bind.
  exists t. split; [done|]. apply list_elem_of_lookup; eauto.
Qed.

Lemma step_errors s a s' e :
  step s a = Some s' → e ∈ errors s' →
  e ∈ errors s ∨ returned_by_task e (mem s') ∨
  (e = DeadlineExceeded ∧ ∃ pc fin, threads s !! a.2 = Some (Watchdog pc fin)).
Proof.
  intros (t & t' & m' & sp & _ & Ht & Hs & ->)%step_inv He.
  destruct (thread_step_errors _ _ _ _ _ _ Hs) as [Hloc Hsp].
  unfold errors in He; simpl in He.
  assert (e ∈ errs_of t' ++ buf (errChan (pool m')) ++ logged m' ∨ e ∈ errors s)
    as [Hnew|?]; [| |by left].
  { apply elem_of_app in He as [He|He]; [|left; apply elem_of_app; by right].
    apply list_elem_of_bind in He as (x & Hex & Hx).
    apply elem_of_insert_app in Hx as [->|[Hx|Hx]].
    - left. apply elem_of_app; by left.
    - right. apply list_elem_of_lookup in Hx as [i Hi]. eauto using errors_thread.
    - rewrite (Hsp _ Hx) in Hex. by apply elem_of_nil in Hex. }
  destruct (Hloc e Hnew) as [Hold|[?|[-> (pc & fin & ->)]]].
  - left. apply elem_of_app in Hold as [?|?]; [by eapply errors_thread|].
    apply elem_of_app; by right.
  - by right; left.
  - right; right. eauto.
Qed.

Lemma returned_by_task_step s a s' e :
  step s a = Some s' → returned_by_task e (mem s) → returned_by_task e (mem s').
Proof.
  intros [l Hl]%step_ran (wt & id & Hwt & Hf). exists wt, id. split; [|done].
  rewrite Hl. apply elem_of_app; by left.
Qed.

Lemma errors_explained s e :
  reachable s → e ∈ errors s → e = DeadlineExceeded ∨ returned_by_task e (mem s).
Proof.
  intros (max & scripts & acts & Hrun).
  assert (∀ e, e ∈ errors (init max scripts) →
            e = DeadlineExceeded ∨ returned_by_task e (mem (init max scripts))) as H0.
  { intros e0. unfold errors, init; simpl. rewrite app_nil_r.
    intros (x & Hx & [sc [-> _]]%list_elem_of_fmap)%list_elem_of_bind.
    by apply elem_of_nil in Hx. }
  revert e Hrun H0. generalize (init max scripts). clear max scripts.
  induction acts as [|a acts IH]; intros s0 e Hrun H0; simplify_eq/=; [by auto|].
  destruct (step s0 a) as [s1|] eqn:Hs; simplify_eq/=.
  apply (IH s1); [done|]. intros e0 He0.
  destruct (step_errors _ _ _ _ Hs He0) as [Hold|[?|[-> _]]]; auto.
  destruct (H0 _ Hold) as [?|?]; eauto using returned_by_task_step.
Qed.

Lemma no_timeout_inv_step s a s' : step s a = Some s' → no_timeout_inv s → no_timeout_inv s'.
Proof.
  intros Hstep (Hto & Hq & Herr).
  pose proof Hstep as (t & t' & m' & sp & _ & Ht & Hs & ->)%step_inv.
  assert (t ∈ threads s) as Hin by (apply list_elem_of_lookup; eauto).
  destruct (thread_step_no_timeout _ _ _ _ _ _ Hs Hto (Hq _ Hin)) as (Hto' & Hq' & Hsp).
  split; [done|]. split.
  - intros x [->|[?|?]]%elem_of_insert_app; auto.
  - intros e He. destruct (step_errors _ _ _ _ Hstep He) as [Hold|[?|[_ (pc & fin & Hw)]]].
    + eapply returned_by_task_step; eauto.
    + done.
    + rewrite Ht in Hw. injection Hw as ->. by specialize (Hq _ Hin).
Qed.

(** X7.  Whatever error [Wait] has returned to a caller, in a reachable
    state, is either [DeadlineExceeded] or the error returned by a task that
    ran: [Wait] never reports an error that did not occur. *)
Theorem Wait_returns_only_errors_that_occurred s tid fr script rets e :
  reachable s →
  threads s !! tid = Some (Client fr script rets) →
  RetWait (Some e) ∈ rets →
  e = DeadlineExceeded ∨
  ∃ wt id, wt ∈ ran (mem s) ∧ func_of wt = Closure id (Some e).
Proof.
  intros Hr Ht He. apply (errors_explained s e Hr).
  apply (errors_thread s tid _ e Ht). simpl.
  apply list_elem_of_bind. exists (RetWait (Some e)). split; [by left|done].
Qed.

Lemma Wait_returns_only_errors_that_occurred_witness :
  TaskError 7 = DeadlineExceeded ∨
  ∃ wt id, wt ∈ ran (mem failure_reported) ∧
    func_of wt = Closure id (Some (TaskError 7)).
Proof.
  apply (Wait_returns_only_errors_that_occurred failure_reported 0%nat None []
           [RetWait (Some (TaskError 7))] (TaskError 7)).
  - exists 1, [[CallDo (Closure 1 (Some (TaskError 7))); CallWait]],
      (fail_and_join ++ by_thread 0 2).
    vm_compute; reflexivity.
  - reflexivity.
  - left.
Defined.


(** X8.  If no caller ever sets a positive timeout, then along every
    schedule the timeout stays non-positive, no watchdog goroutine exists,
    and every error [Wait] returns is the error returned by a task that
    ran. *)
Theorem without_timeout_no_watchdog_and_only_task_errors max scripts acts s :
  run (init max scripts) acts = Some s →
  (∀ sc d, sc ∈ scripts → CallSetTimeout d ∈ sc → d ≤ 0) →
  timeout (pool (mem s)) ≤ 0 ∧
  (∀ tid pc fin, threads s !! tid ≠ Some (Watchdog pc fin)) ∧
  (∀ tid fr script rets e,
     threads s !! tid = Some (Client fr script rets) →
     RetWait (Some e) ∈ rets →
     ∃ wt id, wt ∈ ran (mem s) ∧ func_of wt = Closure id (Some e)).
Proof.
  intros Hrun Hsc.
  assert (no_timeout_inv (init max scripts)) as H0.
  { split; [simpl; lia|]. split.
    - intros t [sc [-> Hin]]%list_elem_of_fmap. simpl.
      apply forallb_forall. intros c Hc%list_elem_of_In.
      destruct c; simpl; try done. apply bool_decide_eq_true. eauto.
    - intros e. unfold errors, init; simpl. rewrite app_nil_r.
      intros (x & Hx & [sc [-> _]]%list_elem_of_fmap)%list_elem_of_bind.
      by apply elem_of_nil in Hx. }
  assert (no_timeout_inv s) as (Hto & Hq & Herr).
  { clear Hsc. revert Hrun H0. generalize (init max scripts).
    induction acts as [|a acts IH]; intros s0 Hrun H0; simplify_eq/=; [done|].
    destruct (step s0 a) as [s1|] eqn:Hs; simplify_eq/=.
    eauto using no_timeout_inv_step. }
  split; [done|]. split.
  - intros tid pc fin Ht. by specialize (Hq _ (proj2 (list_elem_of_lookup _ _) (ex_intro _ tid Ht))).
  - intros tid fr script rets e Ht He. apply Herr.
    apply (errors_thread s tid _ e Ht). simpl.
    apply list_elem_of_bind. exists (RetWait (Some e)). split; [by left|done].
Qed.

Lemma without_timeout_no_watchdog_and_only_task_errors_witness :
  timeout (pool (mem failure_reported)) ≤ 0 ∧
  (∀ tid pc fin, threads failure_reported !! tid ≠ Some (Watchdog pc fin)) ∧
  (∀ tid fr script rets e,
     threads failure_reported !! tid = Some (Client fr script rets) →
     RetWait (Some e) ∈ rets →
     ∃ wt id, wt ∈ ran (mem failure_reported) ∧ func_of wt = Closure id (Some e)).
Proof.
  apply (without_timeout_no_watchdog_and_only_task_errors 1
           [[CallDo (Closure 1 (Some (TaskError 7))); CallWait]]
           (fail_and_join ++ by_thread 0 2) failure_reported).
  - vm_compute; reflexivity.
  - intros sc d Hsc Hd. apply list_elem_of_singleton in Hsc. subst sc.
    apply elem_of_cons in Hd as [Hd|Hd]; [discriminate|].
    apply list_elem_of_singleton in Hd. discriminate.
Defined.


Lemma finishes_bounds fin t : 0 ≤ finishes fin t ≤ 1.
Proof. unfold finishes. repeat case_match; lia. Qed.

Lemma thread_step_finishes k t m t' m' sp fin :
  thread_step k t m = Some (t', m', sp) →
  (runs_nil t = false → runs_nil t' = false) ∧
  (∀ x, x ∈ sp → runs_nil x = false) ∧
  ((fins m' = fins m ∧ finishes fin t' + sumZ (finishes fin) sp ≤ finishes fin t) ∨
   (fins m' = fins m ++ [false] ∧
    finishes fin t' + sumZ (finishes fin) sp
    = finishes fin t + (if decide (fin = length (fins m)) then 1 else 0)) ∨
   (∃ e fin0, t = Worker (WClose e fin0) ∧ fins m !! fin0 = Some false ∧
    fins m' = <[fin0:=true]> (fins m) ∧
    finishes fin t' + sumZ (finishes fin) sp
    = finishes fin t - (if decide (fin = fin0) then 1 else 0))).
Proof.
  intros H. thread_cases H; bool_to_Z; simpl.
  all: split; [by auto|]. 
  all: split; [by intros; in_spawned|].
  all: try (left; split; [done|]; repeat case_decide; lia).
  all: try (right; left; split; [done|]; repeat case_decide; subst; lia).
  all: try (right; right; eexists _, _; split; [done|]; split; [done|]; split; [done|];
            repeat case_decide; subst; lia).
Qed.

Lemma run_inv_init max scripts : run_inv (init max scripts).
Proof.
  assert (∀ fin (l : list (list Call)),
    sumZ (finishes fin) ((λ sc, Client None sc []) <$> l) = 0) as Hz.
  { intros fin l. induction l as [|x l IH]; [done|]. rewrite fmap_cons. simpl. apply IH. }
  unfold run_inv, init; simpl. repeat split; intros; rewrite ?Hz; try done.
  match goal with
  | H : _ ∈ _ <$> _ |- _ => by apply list_elem_of_fmap in H as [sc [-> _]]
  end.
Qed.

Lemma run_inv_step s a s' : step s a = Some s' → run_inv s → run_inv s'.
Proof.
  intros (t & t' & m' & sp & _ & Ht & Hs & ->)%step_inv (Hle & Hfresh & Hclosed & Hnil).
  assert (t ∈ threads s) as Hin by (apply list_elem_of_lookup; eauto).
  assert (∀ fin l, 0 ≤ sumZ (finishes fin) l) as Hpos.
  { intros. apply sumZ_nonneg. intros. apply finishes_bounds. }
  unfold run_inv; simpl. repeat split.
  - intros fin. specialize (Hle fin). specialize (Hfresh fin).
    destruct (thread_step_finishes _ _ _ _ _ _ fin Hs) as (_ & _ & Hloc).
    rewrite sumZ_app, (sumZ_insert _ _ _ t) by done.
    destruct Hloc as [[? ?]|[[? ?]|(e & fin0 & ? & ? & ? & ?)]];
      repeat case_decide; subst; lia.
  - intros fin Hlen. specialize (Hfresh fin).
    pose proof (Hpos fin (<[a.2:=t']> (threads s) ++ sp)) as Hp.
    destruct (thread_step_finishes _ _ _ _ _ _ fin Hs) as (_ & _ & Hloc).
    rewrite sumZ_app, (sumZ_insert _ _ _ t) in * by done.
    destruct Hloc as [[Hf ?]|[[Hf ?]|(e & fin0 & ? & ? & Hf & ?)]];
      rewrite Hf in Hlen; rewrite ?length_app, ?length_insert in Hlen; simpl in Hlen;
      repeat case_decide; subst; lia.
  - intros fin Hf'. specialize (Hle fin). specialize (Hclosed fin).
    pose proof (Hpos fin (<[a.2:=t']> (threads s) ++ sp)) as Hp.
    destruct (thread_step_finishes _ _ _ _ _ _ fin Hs) as (_ & _ & Hloc).
    rewrite sumZ_app, (sumZ_insert _ _ _ t) in * by done.
    destruct Hloc as [[Hf ?]|[[Hf ?]|(e & fin0 & ? & ? & Hf & ?)]]; rewrite Hf in Hf'.
    + specialize (Hclosed Hf'). lia.
    + apply lookup_app_Some in Hf' as [Hf'|[? Hf']].
      * apply lookup_lt_Some in Hf' as ?. specialize (Hclosed Hf'). case_decide; lia.
      * by destruct (fin - length (fins (mem s)))%nat.
    + case_decide; [lia|]. rewrite list_lookup_insert_ne in Hf' by done.
      specialize (Hclosed Hf'). lia.
  - destruct (thread_step_finishes _ _ _ _ _ _ 0%nat Hs) as (Hn & Hsp & _).
    intros x [->|[?|?]]%elem_of_insert_app; auto.
Qed.

Lemma run_inv_reachable s : reachable s → run_inv s.
Proof.
  intros (max & scripts & acts & Hrun).
  pose proof (run_inv_init max scripts) as H0.
  revert Hrun H0. generalize (init max scripts). clear max scripts.
  induction acts as [|a acts IH]; intros s0 Hrun H0; simplify_eq/=; [done|].
  destruct (step s0 a) as [s1|] eqn:Hs; simplify_eq/=.
  eauto using run_inv_step.
Qed.

(** Every way one action can panic. *)
Lemma thread_step_panics k t m t' m' sp e :
  thread_step k t m = Some (t', m', sp) →
  panicked m = None → panicked m' = Some e →
  (e = SendOnClosedChannel ∧ chan_closed (task (pool m)) = true ∧
   ∃ fr script rets, t = Client (Some fr) script rets ∧
     ((∃ fn, fr = InDo (DoSend fn)) ∨ ∃ f d, fr = InDoWait (DwSend f d))) ∨
  (e = CloseOfClosedChannel ∧ chan_closed (task (pool m)) = true ∧
   ∃ script rets, t = Client (Some (InWait WaitClose)) script rets) ∨
  (e = NilFuncCall ∧ ∃ d fin, t = Worker (WCall (Wrapped NilFunc d) fin)) ∨
  runs_nil t = true ∨
  (∃ f d err fin, t = Worker (WDone f d err fin) ∧ dones m !! d ≠ Some false) ∨
  (∃ err fin, t = Worker (WClose err fin) ∧ fins m !! fin ≠ Some false) ∨
  chan_closed (errChan (pool m)) = true ∨
  (t = Worker WDefer ∧ wg (pool m) < 1).
Proof.
  intros H Hp Hp'. thread_cases H; bool_to_Z; simpl in *; try congruence.
  all: simplify_eq.
  all: try (left; split; [done|]; split; [done|]; eexists _, _, _; split; [done|]; eauto; fail).
  all: try (right; left; split; [done|]; split; [done|]; eauto; fail).
  all: try (right; right; left; split; [done|]; eauto; fail).
  all: try (right; right; right; left; done).
  all: try (right; right; right; right; left; eexists _, _, _, _; split; [done|]; congruence).
  all: try (right; right; right; right; right; left; eexists _, _; split; [done|]; congruence).
  all: try (right; right; right; right; right; right; left; done).
  all: try (right; right; right; right; right; right; right; split; [done|lia]).
Qed.

Lemma run_snoc s acts a s1 s2 :
  run s acts = Some s1 → step s1 a = Some s2 → run s (acts ++ [a]) = Some s2.
Proof.
  revert s. induction acts as [|b acts IH]; intros s Hrun Hs; simplify_eq/=.
  - by rewrite Hs.
  - destruct (step s b) as [s0|] eqn:Hb; simplify_eq/=. eauto.
Qed.

Lemma reachable_step s a s' : reachable s → step s a = Some s' → reachable s'.
Proof.
  intros (max & scripts & acts & Hrun) Hs.
  exists max, scripts, (acts ++ [a]). eauto using run_snoc.
Qed.

Lemma holder_channel_open s tid t d :
  hold_inv s → threads s !! tid = Some t → holds d t = 1 →
  dones (mem s) !! d = Some false.
Proof.
  intros (_ & Hfresh & Hclosed & _) Ht Hh.
  assert (1 ≤ holders d s) as Hge.
  { pose proof (sumZ_lookup_le (holds d) (threads s) tid t) as Hle.
    assert (0 ≤ sumZ (closes d) (buf (task (pool (mem s))))).
    { apply sumZ_nonneg. intros. apply closes_nonneg. }
    unfold holders. rewrite Hh in Hle.
    assert (1 ≤ sumZ (holds d) (threads s)); [|lia].
    apply Hle; [|done]. intros. apply holds_nonneg. }
  destruct (dones (mem s) !! d) as [[]|] eqn:Hd; [| done |].
  - specialize (Hclosed d Hd). lia.
  - apply lookup_ge_None in Hd. specialize (Hfresh d Hd). lia.
Qed.

Lemma finisher_channel_open s tid t fin :
  run_inv s → threads s !! tid = Some t → finishes fin t = 1 →
  fins (mem s) !! fin = Some false.
Proof.
  intros (_ & Hfresh & Hclosed & _) Ht Hh.
  assert (1 ≤ sumZ (finishes fin) (threads s)) as Hge.
  { pose proof (sumZ_lookup_le (finishes fin) (threads s) tid t) as Hle.
    rewrite Hh in Hle. apply Hle; [|done]. intros. apply finishes_bounds. }
  destruct (fins (mem s) !! fin) as [[]|] eqn:Hd; [| done |].
  - specialize (Hclosed fin Hd). lia.
  - apply lookup_ge_None in Hd. specialize (Hfresh fin Hd). lia.
Qed.

Lemma step_panics s a s' e :
  reachable s → step s a = Some s' → panicked (mem s') = Some e →
  (e = SendOnClosedChannel ∧ chan_closed (task (pool (mem s))) = true ∧
   ∃ fr script rets, threads s !! a.2 = Some (Client (Some fr) script rets) ∧
     ((∃ fn, fr = InDo (DoSend fn)) ∨ ∃ f d, fr = InDoWait (DwSend f d))) ∨
  (e = CloseOfClosedChannel ∧ chan_closed (task (pool (mem s))) = true ∧
   ∃ script rets,
     threads s !! a.2 = Some (Client (Some (InWait WaitClose)) script rets)) ∨
  (e = NilFuncCall ∧
   ∃ d fin, threads s !! a.2 = Some (Worker (WCall (Wrapped NilFunc d) fin))).
Proof.
  intros Hr (t & t' & m' & sp & Hp & Ht & Hs & ->)%step_inv Hp'. simpl in Hp'.
  pose proof (run_inv_reachable s Hr) as Hrun.
  pose proof (errChan_open_and_bounded s Hr) as (Hopen & _).
  apply reachable_inv in Hr as (Hj & _ & Hhold).
  destruct (thread_step_panics _ _ _ _ _ _ e Hs Hp Hp')
    as [(? & ? & fr & sc & rets & -> & ?)|[(? & ? & sc & rets & ->)|[(? & d & fin & ->)|
        [Hnil|[(f & d & err & fin & -> & Hd)|[(err & fin & -> & Hf)|[Hc|[-> Hwg]]]]]]]].
  - left. eauto 10.
  - right; left. eauto 10.
  - right; right. eauto 10.
  - destruct Hrun as (_ & _ & _ & Hn).
    rewrite (Hn t) in Hnil; [done|]. apply list_elem_of_lookup; eauto.
  - destruct Hd. apply (holder_channel_open s a.2 _ d Hhold Ht).
    simpl. by rewrite decide_True.
  - destruct Hf. apply (finisher_channel_open s a.2 _ fin Hrun Ht).
    simpl. by rewrite decide_True.
  - congruence.
  - destruct Hj as (_ & Hpos & Hwg' & _).
    pose proof (sumZ_lookup_le _ _ _ _ Hpos Ht) as Hle. simpl in Hle. lia.
Qed.




Lemma thread_step_has_closed k t m t' m' sp :
  thread_step k t m = Some (t', m', sp) →
  (has_closed t = true → has_closed t' = true) ∧
  (chan_closed (task (pool m')) = true →
   chan_closed (task (pool m)) = true ∨ has_closed t' = true).
Proof.
  intros H. thread_cases H; simpl; split; auto.
  all: rewrite ?existsb_app; simpl; rewrite ?orb_true_r; auto.
  all: intros; repeat match goal with
       | H : _ || _ = true |- _ => apply orb_true_iff in H as [H|H]; try done
       end; rewrite ?H; rewrite ?orb_true_r; auto.
Qed.

(** X10.  In every reachable state in which the task queue is closed, some
    caller has executed line 117 of [Wait]: it is at the join or the read of
    the error slot, or [Wait] has returned to it.  Nothing else closes the
    queue. *)
Theorem only_Wait_closes_the_queue s :
  reachable s →
  chan_closed (task (pool (mem s))) = true →
  ∃ tid t, threads s !! tid = Some t ∧ has_closed t = true.
Proof.
  intros (max & scripts & acts & Hrun).
  assert (chan_closed (task (pool (mem (init max scripts)))) = true →
          ∃ tid t, threads (init max scripts) !! tid = Some t ∧ has_closed t = true)
    as H0 by done.
  revert Hrun H0. generalize (init max scripts). clear max scripts.
  induction acts as [|a acts IH]; intros s0 Hrun H0; simplify_eq/=; [done|].
  destruct (step s0 a) as [s1|] eqn:Hs; simplify_eq/=.
  apply (IH s1 Hrun). intros Hc.
  pose proof Hs as (t & t' & m' & sp & _ & Ht & Hts & ->)%step_inv.
  destruct (thread_step_has_closed _ _ _ _ _ _ Hts) as [Hkeep Hnew].
  assert (threads (MkState m' (<[a.2:=t']> (threads s0) ++ sp)) !! a.2 = Some t') as Hself.
  { simpl. rewrite lookup_app_l by (rewrite length_insert; eauto using lookup_lt_Some).
    apply list_lookup_insert_eq; eauto using lookup_lt_Some. }
  destruct (Hnew Hc) as [Hold|?]; [|eauto].
  destruct (H0 Hold) as (tid & x & Hx & Hcx).
  destruct (decide (tid = a.2)) as [->|Hne].
  - simplify_eq. eauto.
  - exists tid, x. split; [|done].
    rewrite (step_other s0 a _ tid Hs) by eauto using lookup_lt_Some. done.
Qed.

Lemma only_Wait_closes_the_queue_witness :
  ∃ tid t, threads Do_checked_Wait_closed !! tid = Some t ∧ has_closed t = true.
Proof.
  apply (only_Wait_closes_the_queue Do_checked_Wait_closed); [|reflexivity].
  exists 1, [[CallDo (Closure 0 None)]; [CallWait]], check_then_close.
  vm_compute; reflexivity.
Defined.


Lemma thread_step_tame k t m t' m' sp :
  thread_step k t m = Some (t', m', sp) →
  chan_closed (task (pool m)) = false →
  tame_thread t = true →
  (∀ wt, wt ∈ buf (task (pool m)) → tame_item wt = true) →
  chan_closed (task (pool m')) = false ∧
  tame_thread t' = true ∧
  (∀ x, x ∈ sp → tame_thread x = true) ∧
  (∀ wt, wt ∈ buf (task (pool m')) → tame_item wt = true).
Proof.
  intros H Hc Ht Hq. thread_cases H; simpl in *.
  all: repeat match goal with
       | H : _ && _ = true |- _ => apply andb_true_iff in H as [? ?]
       | H : buf _ = _ :: _ |- _ => rewrite H in Hq
       end.
  all: repeat split; try done; try (intros; in_spawned; done); try congruence.
  all: try (apply andb_true_iff; split; done).
  all: try (apply Hq; by left).
  all: try (intros wt0 Hwt0; apply Hq; by right).
  all: try (intros wt0 [?|Hx]%elem_of_app; [by apply Hq|];
            apply list_elem_of_singleton in Hx; by subst).
  all: try (by repeat case_match).
Qed.

Lemma tame_inv_step s a s' : step s a = Some s' → tame_inv s → tame_inv s'.
Proof.
  intros (t & t' & m' & sp & _ & Ht & Hs & ->)%step_inv (Hc & Hth & Hq).
  assert (t ∈ threads s) as Hin by (apply list_elem_of_lookup; eauto).
  destruct (thread_step_tame _ _ _ _ _ _ Hs Hc (Hth _ Hin) Hq) as (? & ? & Hsp & ?).
  split; [done|]. split; [|done].
  intros x [->|[?|?]]%elem_of_insert_app; auto.
Qed.

(** X11.  If no caller calls [Wait] or [DoWait(nil)], the program never
    panics and the task queue is never closed, along every schedule. *)
Theorem no_panic_without_Wait_and_nil_DoWait max scripts acts s :
  run (init max scripts) acts = Some s →
  (∀ sc, sc ∈ scripts → (CallWait ∉ sc) ∧ (CallDoWait NilFunc ∉ sc)) →
  panicked (mem s) = None ∧ chan_closed (task (pool (mem s))) = false.
Proof.
  intros Hrun Hsc.
  assert (tame_inv (init max scripts) ∧ panicked (mem (init max scripts)) = None ∧
          reachable (init max scripts)) as H0.
  { split; [|split; [done|by exists max, scripts, []]].
    split; [done|]. split; [|by intros wt ?%elem_of_nil].
    intros t [sc [-> Hin]]%list_elem_of_fmap. simpl.
    apply forallb_forall. intros c Hc%list_elem_of_In.
    destruct (Hsc sc Hin) as [Hw Hn]. destruct c as [| |[]| |]; simpl; try done. }
  clear Hsc. revert Hrun H0. generalize (init max scripts).
  induction acts as [|a acts IH]; intros s0 Hrun (Ht & Hp & Hr); simplify_eq/=.
  { by destruct Ht. }
  destruct (step s0 a) as [s1|] eqn:Hs; simplify_eq/=.
  apply (IH s1 Hrun). split; [by eapply tame_inv_step|].
  split; [|by eapply reachable_step].
  destruct (panicked (mem s1)) as [e|] eqn:Hp1; [|done]. exfalso.
  destruct Ht as (Hc & Hth & _).
  destruct (step_panics s0 a s1 e Hr Hs Hp1)
    as [(_ & ? & _)|[(_ & ? & _)|(_ & d & fin & Hw)]]; try congruence.
  by specialize (Hth _ (proj2 (list_elem_of_lookup _ _) (ex_intro _ _ Hw))).
Qed.

Lemma no_panic_without_Wait_and_nil_DoWait_witness :
  panicked (mem Do_at_check_when_closed) = None ∧
  chan_closed (task (pool (mem Do_at_check_when_closed))) = false.
Proof.
  apply (no_panic_without_Wait_and_nil_DoWait 1
           [[CallDo (Closure 1 (Some (TaskError 7))); CallDo (Closure 2 None)]]
           error_then_submit Do_at_check_when_closed).
  - vm_compute; reflexivity.
  - intros sc Hsc. apply list_elem_of_singleton in Hsc. subst sc.
    split; intros Hd;
      (apply elem_of_cons in Hd as [Hd|Hd]; [discriminate|]);
      apply list_elem_of_singleton in Hd; discriminate.
Defined.


Lemma thread_step_order k t m t' m' sp :
  thread_step k t m = Some (t', m', sp) →
  is_client t' = is_client t ∧
  (∀ x, x ∈ sp → is_client x = 0 ∧ inflight x = [] ∧ tosubmit x = []) ∧
  (is_worker t = 0 →
   ran m' = ran m ∧ inflight t = [] ∧ inflight t' = [] ∧
   sublist ((func_of <$> buf (task (pool m'))) ++ tosubmit t')
           ((func_of <$> buf (task (pool m))) ++ tosubmit t)) ∧
  (is_worker t = 1 →
   tosubmit t = [] ∧ tosubmit t' = [] ∧
   sublist ((func_of <$> ran m') ++ inflight t' ++ (func_of <$> buf (task (pool m'))))
           ((func_of <$> ran m) ++ inflight t ++ (func_of <$> buf (task (pool m))))).
Proof.
  intros H. thread_cases H.
  all: simpl; split; [done|]; split; [by intros; in_spawned|].
  all: split; intros Hw; try done; try lia.
  all: repeat split; try done.
  all: use_buf; rewrite ?fmap_app, ?fmap_cons; simpl; rewrite <- ?app_assoc; simpl.
  all: try reflexivity.
  all: try (apply sublist_app; [reflexivity|]; simpl; try reflexivity;
            by apply sublist_cons).
Qed.

Lemma bind_insert_app {A B} (g : A → list B) (l sp : list A) (i : nat) (x y : A) :
  l !! i = Some x →
  (<[i:=y]> l ++ sp) ≫= g
  = (take i l ≫= g) ++ g y ++ (drop (S i) l ≫= g) ++ (sp ≫= g).
Proof.
  intros Hi. rewrite bind_app, insert_take_drop by eauto using lookup_lt_Some.
  by rewrite bind_app, bind_cons, <- !app_assoc.
Qed.

Lemma bind_lookup {A B} (g : A → list B) (l : list A) (i : nat) (x : A) :
  l !! i = Some x →
  l ≫= g = (take i l ≫= g) ++ g x ++ (drop (S i) l ≫= g).
Proof.
  intros Hi. rewrite <- (take_drop_middle l i x Hi) at 1.
  by rewrite bind_app, bind_cons.
Qed.

Lemma bind_nil_all {A B} (g : A → list B) (l : list A) :
  (∀ x, x ∈ l → g x = []) → l ≫= g = [].
Proof.
  induction l as [|x l IH]; intros H; [done|]. rewrite bind_cons, (H x) by left.
  simpl. apply IH. intros; apply H; by right.
Qed.

(** With at most one thread of a kind, the others contribute nothing. *)
Lemma others_nil {B} (f : Thread → Z) (g : Thread → list B) (l : list Thread) i x :
  (∀ y, 0 ≤ f y) → (∀ y, f y = 0 → g y = []) →
  sumZ f l ≤ 1 → l !! i = Some x → f x = 1 →
  take i l ≫= g = [] ∧ drop (S i) l ≫= g = [].
Proof.
  intros Hpos Hg Hsum Hi Hx.
  assert (∀ j y, l !! j = Some y → j ≠ i → g y = []) as Hothers.
  { intros j y Hj Hne. apply Hg.
    pose proof (sumZ_lookup2_le f l j i y x) as Hle. pose proof (Hpos y).
    rewrite Hx in Hle. assert (f y + 1 ≤ sumZ f l); [|lia]. apply Hle; auto. }
  split; apply bind_nil_all; intros y [j Hj]%list_elem_of_lookup.
  - apply lookup_take_Some in Hj as [Hj ?]. apply (Hothers j y Hj). lia.
  - rewrite lookup_drop in Hj. apply (Hothers _ y Hj). lia.
Qed.

Lemma sublist_frame_r {A} (r r' w w' q q' x : list A) :
  sublist (r' ++ w' ++ q') (r ++ w ++ q) →
  sublist (r' ++ w' ++ q' ++ x) (r ++ w ++ q ++ x).
Proof.
  intros H.
  replace (r' ++ w' ++ q' ++ x) with ((r' ++ w' ++ q') ++ x) by (by rewrite <- !app_assoc).
  replace (r ++ w ++ q ++ x) with ((r ++ w ++ q) ++ x) by (by rewrite <- !app_assoc).
  by apply sublist_app.
Qed.

Lemma inflight_worker t : is_worker t = 0 → inflight t = [].
Proof. by destruct t. Qed.

Lemma tosubmit_client t : is_client t = 0 → tosubmit t = [].
Proof. by destruct t. Qed.

Lemma step_order s a s' :
  step s a = Some s' →
  sumZ is_worker (threads s) ≤ 1 → sumZ is_client (threads s) ≤ 1 →
  sumZ is_client (threads s') = sumZ is_client (threads s) ∧
  sublist (order s') (order s).
Proof.
  intros (t & t' & m' & sp & _ & Ht & Hs & ->)%step_inv Hw Hc.
  destruct (thread_step_order _ _ _ _ _ _ Hs) as (Hcl & Hsp & Hnw & Hwk).
  assert (sp ≫= inflight = [] ∧ sp ≫= tosubmit = [] ∧ sumZ is_client sp = 0)
    as (Hspi & Hspt & Hspc).
  { repeat split; [apply bind_nil_all; intros; by apply Hsp ..|].
    clear Hs Hnw Hwk. induction sp as [|x sp IH]; [done|]. simpl.
    destruct (Hsp x) as [-> _]; [by left|]. rewrite IH; [done|].
    intros; apply Hsp; by right. }
  split.
  { simpl. rewrite sumZ_app, (sumZ_insert _ _ _ t) by done. lia. }
  unfold order; simpl.
  rewrite !(bind_insert_app _ _ _ _ t t') by done.
  rewrite (bind_lookup inflight _ _ _ Ht), (bind_lookup tosubmit _ _ _ Ht).
  rewrite Hspi, Hspt, !app_nil_r.
  destruct (decide (is_worker t = 1)) as [Hiw|Hiw].
  - destruct (Hwk Hiw) as (-> & -> & Hsub).
    destruct (others_nil is_worker inflight (threads s) a.2 t) as [-> ->]; auto.
    { intros []; simpl; lia. } { apply inflight_worker. }
    simpl. rewrite !app_nil_r. by apply sublist_frame_r.
  - assert (is_worker t = 0) as Hz by (destruct t; simpl in *; lia).
    destruct (Hnw Hz) as (-> & -> & -> & Hsub). simpl.
    apply sublist_app; [reflexivity|]. apply sublist_app; [reflexivity|].
    destruct (decide (is_client t = 1)) as [Hic|Hic].
    + destruct (others_nil is_client tosubmit (threads s) a.2 t) as [-> ->]; auto.
      { intros []; simpl; lia. } { apply tosubmit_client. }
      simpl. by rewrite !app_nil_r.
    + assert (is_client t = 0) as Hz' by (destruct t; simpl in *; lia).
      rewrite (tosubmit_client t Hz') in *.
      rewrite (tosubmit_client t') in * by lia.
      rewrite !app_nil_r in Hsub. simpl.
      apply sublist_app; [done|reflexivity].
Qed.


(** X12.  With one caller and one worker ([max <= 1]), along every
    schedule, the functions that have run, in the order they ran, are a
    sublist of the functions the caller submits, in the order of its calls:
    tasks may be dropped but never run out of order. *)
Theorem single_worker_runs_in_submission_order max script acts s :
  run (init max [script]) acts = Some s →
  max ≤ 1 →
  sublist (func_of <$> ran (mem s)) (script ≫= call_funcs).
Proof.
  intros Hrun Hmax.
  assert (reachable (init max [script]) ∧
          maxWorkersCount (pool (mem (init max [script]))) = 1 ∧
          sumZ is_client (threads (init max [script])) = 1 ∧
          sublist (order (init max [script])) (script ≫= call_funcs)) as H0.
  { split; [by exists max, [script], []|]. split; [|split].
    - simpl. case_match; bool_to_Z; lia.
    - done.
    - unfold order, init; simpl. by rewrite !app_nil_r. }
  assert (sublist (order s) (script ≫= call_funcs)) as Hsub.
  { revert Hrun H0. generalize (init max [script]).
    induction acts as [|a acts IH]; intros s0 Hrun (Hr & Hm & Hc & Ho); simplify_eq/=.
    { done. }
    destruct (step s0 a) as [s1|] eqn:Hs; simplify_eq/=.
    apply (IH s1 Hrun).
    destruct (step_order s0 a s1 Hs) as [Hc' Ho'].
    { destruct (worker_count s0 Hr) as [? _]. lia. }
    { lia. }
    split; [by eapply reachable_step|]. split; [by rewrite (step_maxWorkersCount _ _ _ Hs)|].
    split; [lia|]. by etrans. }
  etrans; [|exact Hsub]. unfold order. by apply sublist_inserts_r.
Qed.

Lemma single_worker_runs_in_submission_order_witness :
  sublist (func_of <$> ran (mem Do_at_check_when_closed))
          ([CallDo (Closure 1 (Some (TaskError 7))); CallDo (Closure 2 None)]
           ≫= call_funcs).
Proof.
  apply (single_worker_runs_in_submission_order 1
           [CallDo (Closure 1 (Some (TaskError 7))); CallDo (Closure 2 None)]
           error_then_submit Do_at_check_when_closed).
  - vm_compute; reflexivity.
  - lia.
Defined.


Lemma thread_step_order_eq k t m t' m' sp :
  thread_step k t m = Some (t', m', sp) →
  closed (pool m') = 0 → NilFunc ∉ inflight t →
  (is_worker t = 0 →
   (func_of <$> buf (task (pool m'))) ++ tosubmit t'
   = (func_of <$> buf (task (pool m))) ++ tosubmit t) ∧
  (is_worker t = 1 →
   (func_of <$> ran m') ++ inflight t' ++ (func_of <$> buf (task (pool m')))
   = (func_of <$> ran m) ++ inflight t ++ (func_of <$> buf (task (pool m)))).
Proof.
  intros H Hc Hn. thread_cases H; bool_to_Z; simpl in *; try lia.
  all: split; intros Hw; try done; try lia.
  all: use_buf; rewrite ?fmap_app, ?fmap_cons; simpl; rewrite <- ?app_assoc; simpl.
  all: try reflexivity.
  all: try match goal with
       | H : is_nil ?wt = true ∨ _ |- _ =>
           destruct H as [H|H]; [|lia]; destruct wt as [[]|]; try done;
           destruct Hn; by left
       end.
Qed.

Lemma sublist_not_elem {A} (x : A) (l k : list A) : sublist l k → x ∉ k → x ∉ l.
Proof. intros Hs Hx Hl. apply Hx. by eapply elem_of_sublist. Qed.

Lemma step_order_eq s a s' :
  step s a = Some s' →
  sumZ is_worker (threads s) ≤ 1 → sumZ is_client (threads s) ≤ 1 →
  closed (pool (mem s')) = 0 → NilFunc ∉ order s →
  order s' = order s.
Proof.
  intros (t & t' & m' & sp & _ & Ht & Hs & ->)%step_inv Hw Hc Hcl Hnil.
  destruct (thread_step_order _ _ _ _ _ _ Hs) as (_ & Hsp & Hnw & Hwk).
  assert (NilFunc ∉ inflight t) as Hn.
  { intros Hin. apply Hnil. unfold order.
    apply elem_of_app; right. apply elem_of_app; left.
    apply list_elem_of_bind. exists t. split; [done|]. apply list_elem_of_lookup; eauto. }
  destruct (thread_step_order_eq _ _ _ _ _ _ Hs Hcl Hn) as (Hnw' & Hwk').
  assert (sp ≫= inflight = [] ∧ sp ≫= tosubmit = []) as (Hspi & Hspt).
  { split; apply bind_nil_all; intros; by apply Hsp. }
  unfold order; simpl.
  rewrite !(bind_insert_app _ _ _ _ t t') by done.
  rewrite (bind_lookup inflight _ _ _ Ht), (bind_lookup tosubmit _ _ _ Ht).
  rewrite Hspi, Hspt, !app_nil_r.
  destruct (decide (is_worker t = 1)) as [Hiw|Hiw].
  - destruct (Hwk Hiw) as (-> & -> & _). specialize (Hwk' Hiw).
    destruct (others_nil is_worker inflight (threads s) a.2 t) as [-> ->]; auto.
    { intros []; simpl; lia. } { apply inflight_worker. }
    simpl. rewrite !app_nil_r.
    rewrite !(app_assoc (func_of <$> ran _)), !(app_assoc (_ ++ inflight _)).
    rewrite <- !(app_assoc (func_of <$> ran _) (inflight _)). by rewrite Hwk'.
  - assert (is_worker t = 0) as Hz by (destruct t; simpl in *; lia).
    destruct (Hnw Hz) as (-> & -> & -> & _). specialize (Hnw' Hz). simpl.
    f_equal. f_equal.
    destruct (decide (is_client t = 1)) as [Hic|Hic].
    + destruct (others_nil is_client tosubmit (threads s) a.2 t) as [-> ->]; auto.
      { intros []; simpl; lia. } { apply tosubmit_client. }
      simpl. by rewrite !app_nil_r.
    + assert (is_client t = 0) as Hz' by (destruct t; simpl in *; lia).
      destruct (thread_step_order _ _ _ _ _ _ Hs) as (Hcl' & _).
      rewrite (tosubmit_client t Hz') in *.
      rewrite (tosubmit_client t') in * by lia.
      rewrite !app_nil_r in Hnw'. simpl. by rewrite Hnw'.
Qed.


(** X13.  With one caller and one worker, no nil function submitted, and the
    closed flag still 0, nothing has been dropped: what has run, what the
    worker holds, what is queued and what is yet to be sent are, in this
    order, the functions of the caller's script.  So when the workers are
    joined and the caller has returned from its last call, every submitted
    function has run exactly once, in the order of submission. *)
Theorem single_worker_runs_everything_in_order max script acts s :
  run (init max [script]) acts = Some s →
  max ≤ 1 →
  NilFunc ∉ script ≫= call_funcs →
  closed (pool (mem s)) = 0 →
  order s = script ≫= call_funcs ∧
  (wg (pool (mem s)) = 0 → forallb idle (threads s) = true →
   func_of <$> ran (mem s) = script ≫= call_funcs).
Proof.
  intros Hrun Hmax Hnil Hclosed.
  assert (reachable s) as Hreach by (by exists max, [script], acts).
  assert (reachable (init max [script]) ∧
          maxWorkersCount (pool (mem (init max [script]))) = 1 ∧
          sumZ is_client (threads (init max [script])) = 1 ∧
          order (init max [script]) = script ≫= call_funcs) as H0.
  { split; [by exists max, [script], []|]. split; [|split].
    - simpl. case_match; bool_to_Z; lia.
    - done.
    - unfold order, init; simpl. by rewrite !app_nil_r. }
  assert (order s = script ≫= call_funcs) as Hord.
  { clear Hreach. revert Hrun H0. generalize (init max [script]).
    induction acts as [|a acts IH]; intros s0 Hrun (Hr & Hm & Hc & Ho); simplify_eq/=.
    { done. }
    destruct (step s0 a) as [s1|] eqn:Hs; simplify_eq/=.
    apply (IH s1 Hrun).
    assert (sumZ is_worker (threads s0) ≤ 1) as Hw.
    { destruct (worker_count s0 Hr) as [? _]. lia. }
    destruct (step_order s0 a s1 Hs) as [Hc' _]; [done|lia|].
    assert (closed (pool (mem s1)) = 0) as Hc1.
    { destruct (run_closed _ _ _ Hrun) as [Heq|?]; [|lia]. by rewrite <- Heq. }
    split; [by eapply reachable_step|]. split; [by rewrite (step_maxWorkersCount _ _ _ Hs)|].
    split; [lia|]. rewrite <- Ho. apply (step_order_eq s0 a s1); auto; [lia|].
    by rewrite Ho. }
  split; [done|]. intros Hwg Hidle. rewrite <- Hord. unfold order.
  destruct (joined_queue_empty s Hreach Hwg) as [-> _].
  pose proof Hreach as (Hj & _)%reachable_inv.
  destruct (joined_all_terminated s Hj Hwg) as (Hexit & _).
  assert (threads s ≫= inflight = []) as ->.
  { apply bind_nil_all. intros t [tid Ht]%list_elem_of_lookup.
    destruct t as [| |pc| |]; try done. by rewrite (Hexit _ _ Ht). }
  assert (threads s ≫= tosubmit = []) as ->.
  { apply bind_nil_all. intros t Ht.
    pose proof (proj1 (forallb_forall _ _) Hidle t) as Hi.
    specialize (Hi (proj1 (list_elem_of_In _ _) Ht)).
    destruct t as [fr sc rets| | | |]; try done. by destruct fr, sc. }
  by rewrite !app_nil_r.
Qed.

Lemma single_worker_runs_everything_in_order_witness :
  func_of <$> ran (mem both_ran_Wait_returned) = [Closure 1 None; Closure 2 None].
Proof.
  refine (proj2 (single_worker_runs_everything_in_order 1
                   [CallDo (Closure 1 None); CallDo (Closure 2 None); CallWait]
                   run_both_and_Wait both_ran_Wait_returned _ _ _ _) _ _).
  - vm_compute; reflexivity.
  - lia.
  - vm_compute. intros Hin.
    apply elem_of_cons in Hin as [Hin|Hin]; [discriminate|].
    apply list_elem_of_singleton in Hin. discriminate.
  - reflexivity.
  - reflexivity.
  - reflexivity.
Defined.



